(** * Concurrent counter demos: an interleaving model and its properties

    The repository holds four stand-alone C++ programs:

    - [raceCondition.cpp]: two threads run [counter++] on a plain [int];
    - [mutex.cpp]: the same loop, each [counter++] under a [std::lock_guard];
    - [atomic.cpp]: the same loop with [counter.fetch_add(1, relaxed)];
    - [simpleMultiThreading.cpp]: two threads that only print a message.

    The programs are embedded as small transition systems.  Every thread has
    a program counter, the globals ([counter], [mtx], [std::cout]) are fields
    of the state, and a scheduler picks the thread that moves next.  A move
    is one step of one thread: a loop test, a lock or unlock, a read or a
    write of [counter], a [fetch_add], an [i++], one stream insertion, one
    statement of [main].  A run of a program is a sequence of moves from
    the initial state; the moves of different threads interleave freely.

    Three choices of the model go beyond what the C++ text fixes:

    - memory is sequentially consistent.  The only shared locations are
      [counter] and [mtx]; the relaxed [fetch_add] is atomic on its single
      location, which is all that is used of it;
    - the unsynchronised [counter++] of [raceCondition.cpp] is a read
      followed by a write, between which other threads can move.  The
      language leaves a data race undefined; this is the behaviour the
      program is written to exhibit;
    - [int] is 32 bits wide and its arithmetic wraps around, as
      [fetch_add] is specified to do.  For the plain [int] overflow is
      undefined in the language; the results that concern it are stated where
      no overflow occurs.

    The loop bound [1000000] and the number of threads [2] are parameters
    [n] and [t] of the model; the source's values are [iterations_per_thread]
    and [threads]. *)

From Stdlib Require Import ZArith Lia Bool List String Ascii DecimalString.
From stdpp Require Import base tactics option list relations.

Local Open Scope Z_scope.

(** ** 32-bit [int] *)

Module Int32.

Definition INT_MIN : Z := -2147483648.
Definition INT_MAX : Z := 2147483647.

(** Two's-complement reduction into [INT_MIN .. INT_MAX]. *)
Definition wrap32 (z : Z) : Z := (z + 2 ^ 31) mod 2 ^ 32 - 2 ^ 31.

Definition in_int (z : Z) : Prop := INT_MIN <= z <= INT_MAX.

(** [operator<<(int)]: the decimal digits, with a leading [-] below zero. *)
Definition decimal (z : Z) : string := NilZero.string_of_int (Z.to_int z).

End Int32.

Import Int32.

(** ** Text on standard output *)

Module Text.

Definition newline : string := String (ascii_of_nat 10) EmptyString.

(** Number of occurrences of a character. *)
Fixpoint occurrences (c : ascii) (s : string) : nat :=
  match s with
  | EmptyString => 0%nat
  | String c' s' => ((if Ascii.eqb c c' then 1 else 0) + occurrences c s')%nat
  end.

(** The lines of a text: the newline-free stretches, each ended by a
    newline (text after the last newline is an unfinished last line). *)
Fixpoint lines_from (cur : string) (s : string) : list string :=
  match s with
  | EmptyString => match cur with EmptyString => [] | _ => [cur] end
  | String c s' =>
      if Ascii.eqb c (ascii_of_nat 10) then cur :: lines_from EmptyString s'
      else lines_from (cur ++ String c EmptyString)%string s'
  end.

Definition lines (s : string) : list string := lines_from EmptyString s.

(** A sequence of insertions, as the text it leaves on the stream. *)
Definition flat (l : list string) : string :=
  fold_right String.append EmptyString l.

End Text.

Import Text.

(** ** The three counter programs *)

Module Counter.

(** Which of the three files is run. *)
Inductive regime : Type :=
| NONE     (* raceCondition.cpp *)
| MUTEX    (* mutex.cpp *)
| ATOMIC.  (* atomic.cpp *)

(** The constants of the source. *)
Definition threads : nat := 2.
Definition iterations_per_thread : Z := 1000000.

(** The globals: [int counter = 0] (or [std::atomic<int> counter(0)]) and
    [std::mutex mtx], which is either free or held. *)
Record shared : Type := Shared { counter : Z; mtx : bool }.

(** Program points of [incrementCounter].  [i] is the loop variable; [v] is
    the value of [counter] that the read half of [counter++] has fetched. *)
Inductive pc : Type :=
| PTest (i : Z)       (* for (...; i < n; ...) *)
| PLock (i : Z)       (* std::lock_guard<std::mutex> lock(mtx); *)
| PLoad (i : Z)       (* counter++ : read counter *)
| PStore (i v : Z)    (* counter++ : write v + 1 *)
| PUnlock (i : Z)     (* end of the body: ~lock_guard() *)
| PFetchAdd (i : Z)   (* counter.fetch_add(1, std::memory_order_relaxed); *)
| PNext (i : Z)       (* i++ *)
| PDone.              (* returned *)

(** First and last program point of the loop body in each file. *)
Definition body_entry (r : regime) (i : Z) : pc :=
  match r with
  | NONE => PLoad i
  | MUTEX => PLock i
  | ATOMIC => PFetchAdd i
  end.

Definition body_exit (r : regime) (i : Z) : pc :=
  match r with
  | MUTEX => PUnlock i
  | _ => PNext i
  end.

(** One move of a worker thread.  [None]: the thread cannot move (it waits
    for [mtx], or it has returned).  Arithmetic on [int] is reduced with
    [wrap32]: this is what [fetch_add] is specified to do, and what the
    plain [int] does on a two's-complement machine. *)
Definition incrementCounter (r : regime) (n : Z) (p : pc) (m : shared)
  : option (pc * shared) :=
  match p with
  | PTest i => Some (if i <? n then body_entry r i else PDone, m)
  | PLock i =>
      if mtx m then None
      else Some (PLoad i, Shared (counter m) true)
  | PLoad i => Some (PStore i (counter m), m)
  | PStore i v => Some (body_exit r i, Shared (wrap32 (v + 1)) (mtx m))
  | PUnlock i => Some (PNext i, Shared (counter m) false)
  | PFetchAdd i => Some (PNext i, Shared (wrap32 (counter m + 1)) (mtx m))
  | PNext i => Some (PTest (wrap32 (i + 1)), m)
  | PDone => None
  end.

(** Program points of [main]: create the threads, join them in the same
    order, print, return. *)
Inductive mpc : Type :=
| MSpawn (k : nat)    (* std::thread t_k(incrementCounter); *)
| MJoin (k : nat)     (* t_k.join(); *)
| MPutLabel           (* std::cout << "Final counter value: " *)
| MPutCounter         (*           << counter *)
| MPutEndl            (*           << std::endl; *)
| MReturn             (* return 0; *)
| MExited (code : Z).

Record state : Type := State {
  mem : shared;
  workers : list pc;   (* the threads created so far, in creation order *)
  main_pc : mpc;
  cout : string
}.

Definition endl : string := newline.
Definition label : string := "Final counter value: ".

Definition join_from (t k : nat) : mpc :=
  if (k <? t)%nat then MJoin k else MPutLabel.

Definition spawn_from (t k : nat) : mpc :=
  if (k <? t)%nat then MSpawn k else join_from t 0.

(** One move of the main thread.  A join waits until the joined thread has
    returned. *)
Definition main (t : nat) (s : state) : option state :=
  match main_pc s with
  | MSpawn k =>
      Some (State (mem s) (workers s ++ [PTest 0]) (spawn_from t (S k)) (cout s))
  | MJoin k =>
      match workers s !! k with
      | Some PDone => Some (State (mem s) (workers s) (join_from t (S k)) (cout s))
      | _ => None
      end
  | MPutLabel =>
      Some (State (mem s) (workers s) MPutCounter (cout s ++ label)%string)
  | MPutCounter =>
      Some (State (mem s) (workers s) MPutEndl
              (cout s ++ decimal (counter (mem s)))%string)
  | MPutEndl =>
      Some (State (mem s) (workers s) MReturn (cout s ++ endl)%string)
  | MReturn => Some (State (mem s) (workers s) (MExited 0) (cout s))
  | MExited _ => None
  end.

(** Whom the scheduler picks. *)
Inductive agent : Type :=
| Main
| Worker (k : nat).

Definition step (r : regime) (t : nat) (n : Z) (a : agent) (s : state)
  : option state :=
  match a with
  | Main => main t s
  | Worker k =>
      match workers s !! k with
      | Some p =>
          match incrementCounter r n p (mem s) with
          | Some (p', m') =>
              Some (State m' (<[k := p']> (workers s)) (main_pc s) (cout s))
          | None => None
          end
      | None => None
      end
  end.

(** Process start: the globals hold their static initialisers and [main]
    is at its first statement. *)
Definition init (t : nat) : state :=
  State (Shared 0 false) [] (spawn_from t 0) EmptyString.

(** Runs a schedule; a pick that cannot move ends the run with [None]. *)
Fixpoint run (r : regime) (t : nat) (n : Z) (sched : list agent) (s : state)
  : option state :=
  match sched with
  | [] => Some s
  | a :: sched' =>
      match step r t n a s with
      | Some s' => run r t n sched' s'
      | None => None
      end
  end.

Definition steps (r : regime) (t : nat) (n : Z) (s s' : state) : Prop :=
  exists a, step r t n a s = Some s'.

Definition reachable (r : regime) (t : nat) (n : Z) (s : state) : Prop :=
  rtc (steps r t n) (init t) s.

Definition exited (s : state) : Prop := exists code, main_pc s = MExited code.

(** A complete run: the process has exited in [s]. *)
Definition final (r : regime) (t : nat) (n : Z) (s : state) : Prop :=
  reachable r t n s /\ exited s.

(** Moves that write [counter]. *)
Definition writes (p : pc) : Z :=
  match p with
  | PStore _ _ | PFetchAdd _ => 1
  | _ => 0
  end.

(** A worker on its own: [incrementCounter] is moved [fuel] times, or until
    it cannot move.  The result is where the thread stands, the memory it
    leaves, and how many times it has written [counter]. *)
Fixpoint run_worker (r : regime) (n : Z) (fuel : nat) (p : pc) (m : shared)
  : pc * shared * Z :=
  match fuel with
  | O => (p, m, 0)
  | S fuel' =>
      match incrementCounter r n p m with
      | Some (p', m') =>
          let '(q, m'', c) := run_worker r n fuel' p' m' in (q, m'', writes p + c)
      | None => (p, m, 0)
      end
  end.

(** *** Quantities used to state the properties *)

(** Loop-body executions a thread has finished writing. *)
Definition committed (n : Z) (p : pc) : Z :=
  match p with
  | PTest i | PLock i | PLoad i | PStore i _ | PFetchAdd i => i
  | PUnlock i | PNext i => i + 1
  | PDone => n
  end.

Definition total (f : pc -> Z) (ws : list pc) : Z :=
  foldr (fun p acc => f p + acc) 0 ws.

(** The increment body of [mutex.cpp]: the read and the write of [counter],
    up to the release of the lock. *)
Definition in_body (p : pc) : bool :=
  match p with
  | PLoad _ | PStore _ _ | PUnlock _ => true
  | _ => false
  end.

Definition holders (ws : list pc) : Z :=
  total (fun p => if in_body p then 1 else 0) ws.

(** Program points that occur in file [r] with loop bound [n]. *)
Definition wf_pc (r : regime) (n : Z) (p : pc) : Prop :=
  match p with
  | PTest i => 0 <= i <= n
  | PLock i | PUnlock i => r = MUTEX /\ 0 <= i < n
  | PLoad i | PStore i _ => r <> ATOMIC /\ 0 <= i < n
  | PFetchAdd i => r = ATOMIC /\ 0 <= i < n
  | PNext i => 0 <= i < n
  | PDone => True
  end.

(** Moves per loop iteration, and moves a thread still has to make. *)
Definition per_iter (r : regime) : Z :=
  match r with
  | NONE => 4
  | MUTEX => 6
  | ATOMIC => 3
  end.

Definition remaining (r : regime) (n : Z) (p : pc) : Z :=
  match p with
  | PTest i => per_iter r * (n - i) + 1
  | PLock i | PFetchAdd i => per_iter r * (n - i)
  | PLoad i => per_iter r * (n - i) - (if r is MUTEX then 1 else 0)
  | PStore i _ => per_iter r * (n - i) - (if r is MUTEX then 2 else 1)
  | PUnlock i => per_iter r * (n - i) - 3
  | PNext i => per_iter r * (n - i) - (per_iter r - 2)
  | PDone => 0
  end.

Definition main_remaining (t : nat) (p : mpc) : Z :=
  match p with
  | MSpawn k => (Z.of_nat t - Z.of_nat k) + Z.of_nat t + 4
  | MJoin k => (Z.of_nat t - Z.of_nat k) + 4
  | MPutLabel => 4
  | MPutCounter => 3
  | MPutEndl => 2
  | MReturn => 1
  | MExited _ => 0
  end.

(** Moves left in the whole process; threads not yet created count with a
    full loop. *)
Definition measure (r : regime) (t : nat) (n : Z) (s : state) : Z :=
  main_remaining t (main_pc s)
  + total (remaining r n) (workers s)
  + (Z.of_nat t - Z.of_nat (length (workers s))) * (per_iter r * n + 1).

(** How far [main] is, against the threads that exist. *)
Definition main_ok (t : nat) (s : state) : Prop :=
  match main_pc s with
  | MSpawn k => length (workers s) = k /\ (k < t)%nat
  | MJoin k =>
      length (workers s) = t /\ (k < t)%nat /\
      forall j, (j < k)%nat -> workers s !! j = Some PDone
  | _ => length (workers s) = t /\ Forall (fun p => p = PDone) (workers s)
  end.

(** Shape of the thread table and of [main]'s progress. *)
Definition shape (r : regime) (t : nat) (n : Z) (s : state) : Prop :=
  Forall (wf_pc r n) (workers s) /\ main_ok t s.

(** [mutex.cpp]: the lock is held exactly while one thread is in the body,
    and a value fetched inside the body is still the value of [counter]. *)
Definition lock_inv (s : state) : Prop :=
  holders (workers s) = (if mtx (mem s) then 1 else 0) /\
  forall k i v, workers s !! k = Some (PStore i v) -> v = counter (mem s).

(** No update is lost: [counter] is the number of finished increments,
    as an [int]. *)
Definition exact (n : Z) (s : state) : Prop :=
  counter (mem s) = wrap32 (total (committed n) (workers s)).

(** [counter], and every value fetched from it, is an [int] that does not
    exceed the number of finished increments. *)
Definition bounded (n : Z) (s : state) : Prop :=
  in_int (counter (mem s)) /\
  counter (mem s) <= total (committed n) (workers s) /\
  forall k i v, workers s !! k = Some (PStore i v) ->
    in_int v /\ v <= total (committed n) (workers s).

(** Nothing has gone below zero. *)
Definition nonneg (s : state) : Prop :=
  0 <= counter (mem s) /\
  forall k i v, workers s !! k = Some (PStore i v) -> 0 <= v.

(** [raceCondition.cpp]: what survives of the increments when updates can
    be lost. *)
Definition racy_inv (t : nat) (n : Z) (s : state) : Prop :=
  (1 <= total (committed n) (workers s) -> 1 <= counter (mem s)) /\
  (forall k i v, workers s !! k = Some (PStore i v) -> 1 <= i -> 1 <= v) /\
  (2 <= n ->
   2 <= counter (mem s) \/ total (committed n) (workers s) < Z.of_nat t * n).

(** The increment a thread at [p] is about to perform does not leave the
    range of [int]. *)
Definition no_wrap (p : pc) (m : shared) : Prop :=
  match p with
  | PStore _ v => wrap32 (v + 1) = v + 1
  | PFetchAdd _ => wrap32 (counter m + 1) = counter m + 1
  | PNext i => wrap32 (i + 1) = i + 1
  | _ => True
  end.

(** What [main] has written, by program point. *)
Definition out_inv (s : state) : Prop :=
  match main_pc s with
  | MSpawn _ | MJoin _ | MPutLabel => cout s = EmptyString
  | MPutCounter => cout s = label
  | MPutEndl => cout s = (label ++ decimal (counter (mem s)))%string
  | MReturn => cout s = (label ++ decimal (counter (mem s)) ++ endl)%string
  | MExited code =>
      cout s = (label ++ decimal (counter (mem s)) ++ endl)%string /\ code = 0
  end.

(** Every run ends: no run has more moves than the measure of the initial
    state, and as long as [main] has not exited somebody can move. *)
Definition terminates (r : regime) (t : nat) (n : Z) : Prop :=
  (forall k s, nsteps (steps r t n) k (init t) s ->
     Z.of_nat k <= measure r t n (init t)) /\
  (forall s, reachable r t n s -> ~ exited s -> exists s', steps r t n s s').

(** *** Schedules used as examples *)

Definition turns (a : agent) (k : nat) : list agent := repeat a k.

(** One thread after the other. *)
Definition sequential (r : regime) (t : nat) (n : Z) : list agent :=
  turns Main t
  ++ flat_map (fun k => turns (Worker k) (Z.to_nat (per_iter r * n + 1))) (seq 0 t)
  ++ turns Main (t + 4).

(** [raceCondition.cpp] with [n = 3]: thread 0 reads 0 and is suspended;
    thread 1 runs two passes; thread 0 writes 1; thread 1 reads 1 and is
    suspended; thread 0 runs to its end; thread 1 writes 2 and ends. *)
Definition lost_update : list agent :=
  [Main; Main]
  ++ turns (Worker 0) 2 ++ turns (Worker 1) 8
  ++ turns (Worker 0) 2 ++ turns (Worker 1) 2
  ++ turns (Worker 0) 9 ++ turns (Worker 1) 3
  ++ turns Main 6.

(** [raceCondition.cpp] with [n = 2]: thread 0 reads 0 and is suspended;
    thread 1 completes both passes.  The next move of thread 0 writes 1. *)
Definition stale_read : list agent :=
  [Main; Main] ++ turns (Worker 0) 2 ++ turns (Worker 1) 7.

(** [atomic.cpp] with [n = 1]: the two threads move in turn. *)
Definition round_robin : list agent :=
  [Main; Main]
  ++ [Worker 0; Worker 1; Worker 0; Worker 1; Worker 0; Worker 1; Worker 0; Worker 1]
  ++ turns Main 6.

(** [main] has got past all the joins. *)
Definition joined (s : state) : Prop :=
  match main_pc s with
  | MSpawn _ | MJoin _ => False
  | _ => True
  end.

(** *** A second call of [main] in the same process *)





End Counter.

(** ** The thread-creation demo, [simpleMultiThreading.cpp] *)

Module SimpleMultiThreading.

(** Program points of [printMessage]: the statement is three stream
    insertions, and another thread can write between any two of them. *)
Inductive ppc : Type :=
| QPutThread     (* std::cout << "Thread " *)
| QPutId         (*           << id *)
| QPutRunning    (*           << " is running\n"; *)
| QDone.

Definition thread_ : string := "Thread ".
Definition is_running : string := (" is running" ++ newline)%string.

(** The three pieces a call of [printMessage id] writes, in order. *)
Definition pieces (id : Z) : list string := [thread_; decimal id; is_running].

(** The line a call writes when nothing comes in between. *)
Definition line (id : Z) : string :=
  (thread_ ++ decimal id ++ is_running)%string.

(** One move of a thread running [printMessage id]. *)
Definition printMessage (id : Z) (p : ppc) (out : string)
  : option (ppc * string) :=
  match p with
  | QPutThread => Some (QPutId, (out ++ thread_)%string)
  | QPutId => Some (QPutRunning, (out ++ decimal id)%string)
  | QPutRunning => Some (QDone, (out ++ is_running)%string)
  | QDone => None
  end.

Inductive qmpc : Type :=
| QSpawn1      (* std::thread t1(printMessage, 1); *)
| QSpawn2      (* std::thread t2(printMessage, 2); *)
| QJoin1       (* t1.join(); *)
| QJoin2       (* t2.join(); *)
| QReturn      (* return 0; *)
| QExited (code : Z).

(** A thread object is absent until its declaration is executed; afterwards
    it holds the argument it was created with and its program point. *)
Record qstate : Type := QState {
  t1 : option (Z * ppc);
  t2 : option (Z * ppc);
  qmain : qmpc;
  qcout : string
}.

Definition joinable (th : option (Z * ppc)) : bool :=
  match th with
  | Some (_, QDone) => true
  | _ => false
  end.

Definition main (s : qstate) : option qstate :=
  match qmain s with
  | QSpawn1 => Some (QState (Some (1, QPutThread)) (t2 s) QSpawn2 (qcout s))
  | QSpawn2 => Some (QState (t1 s) (Some (2, QPutThread)) QJoin1 (qcout s))
  | QJoin1 => if joinable (t1 s) then Some (QState (t1 s) (t2 s) QJoin2 (qcout s)) else None
  | QJoin2 => if joinable (t2 s) then Some (QState (t1 s) (t2 s) QReturn (qcout s)) else None
  | QReturn => Some (QState (t1 s) (t2 s) (QExited 0) (qcout s))
  | QExited _ => None
  end.

Inductive qagent : Type := QMain | QT1 | QT2.

Definition move (th : option (Z * ppc)) (out : string)
  : option (option (Z * ppc) * string) :=
  match th with
  | Some (id, p) =>
      match printMessage id p out with
      | Some (p', out') => Some (Some (id, p'), out')
      | None => None
      end
  | None => None
  end.

Definition qstep (a : qagent) (s : qstate) : option qstate :=
  match a with
  | QMain => main s
  | QT1 =>
      match move (t1 s) (qcout s) with
      | Some (th, out) => Some (QState th (t2 s) (qmain s) out)
      | None => None
      end
  | QT2 =>
      match move (t2 s) (qcout s) with
      | Some (th, out) => Some (QState (t1 s) th (qmain s) out)
      | None => None
      end
  end.

Definition qinit : qstate := QState None None QSpawn1 EmptyString.

Fixpoint qrun (sched : list qagent) (s : qstate) : option qstate :=
  match sched with
  | [] => Some s
  | a :: sched' =>
      match qstep a s with
      | Some s' => qrun sched' s'
      | None => None
      end
  end.

Definition qsteps (s s' : qstate) : Prop := exists a, qstep a s = Some s'.
Definition qreachable (s : qstate) : Prop := rtc qsteps qinit s.
Definition qfinal (s : qstate) : Prop :=
  qreachable s /\ exists code, qmain s = QExited code.

(** Main has got past both joins. *)
Definition past_joins (s : qstate) : Prop :=
  qmain s = QReturn \/ exists code, qmain s = QExited code.

(** Text written so far by a thread at a given point. *)
Definition written (th : option (Z * ppc)) : list string :=
  match th with
  | None => []
  | Some (id, QPutThread) => []
  | Some (id, QPutId) => [thread_]
  | Some (id, QPutRunning) => [thread_; decimal id]
  | Some (id, QDone) => pieces id
  end.

(** [interleave l1 l2 l]: [l] merges [l1] and [l2], keeping the order
    inside each. *)
Inductive interleave {A : Type} : list A -> list A -> list A -> Prop :=
| interleave_nil : interleave [] [] []
| interleave_l x l1 l2 l : interleave l1 l2 l -> interleave (x :: l1) l2 (x :: l)
| interleave_r x l1 l2 l : interleave l1 l2 l -> interleave l1 (x :: l2) (x :: l).

(** All merges of two lists, as a list. *)
Fixpoint merges {A : Type} (l1 l2 : list A) : list (list A) :=
  match l1 with
  | [] => [l2]
  | x :: l1' =>
      (fix merges_r (l2 : list A) : list (list A) :=
         match l2 with
         | [] => [l1]
         | y :: l2' =>
             map (cons x) (merges l1' l2) ++ map (cons y) (merges_r l2')
         end) l2
  end.

(** The line a thread is meant to print, without its newline. *)
Definition text (id : Z) : string :=
  (thread_ ++ decimal id ++ " is running")%string.

(** The output consists of the two intended lines, in either order. *)
Definition expected_lines (out : string) : Prop :=
  lines out = [text 1; text 2] \/ lines out = [text 2; text 1].

(** How far [main] is, against the two thread objects. *)
Definition qshape (s : qstate) : Prop :=
  match qmain s with
  | QSpawn1 => t1 s = None /\ t2 s = None
  | QSpawn2 => (exists p, t1 s = Some (1, p)) /\ t2 s = None
  | QJoin1 => (exists p, t1 s = Some (1, p)) /\ (exists p, t2 s = Some (2, p))
  | QJoin2 => t1 s = Some (1, QDone) /\ (exists p, t2 s = Some (2, p))
  | QReturn => t1 s = Some (1, QDone) /\ t2 s = Some (2, QDone)
  | QExited code => t1 s = Some (1, QDone) /\ t2 s = Some (2, QDone) /\ code = 0
  end.

(** The stream holds a merge of what the two threads have written. *)
Definition qout_inv (s : qstate) : Prop :=
  exists l, interleave (written (t1 s)) (written (t2 s)) l /\ qcout s = flat l.

(** Moves left: insertions of a thread, statements of [main]. *)
Definition qremaining (th : option (Z * ppc)) : nat :=
  match th with
  | None | Some (_, QPutThread) => 3
  | Some (_, QPutId) => 2
  | Some (_, QPutRunning) => 1
  | Some (_, QDone) => 0
  end.

Definition qmain_remaining (p : qmpc) : nat :=
  match p with
  | QSpawn1 => 5
  | QSpawn2 => 4
  | QJoin1 => 3
  | QJoin2 => 2
  | QReturn => 1
  | QExited _ => 0
  end.

Definition qmeasure (s : qstate) : nat :=
  (qmain_remaining (qmain s) + qremaining (t1 s) + qremaining (t2 s))%nat.

(** Thread 1 and thread 2 insert in turn. *)
Definition alternating : list qagent :=
  [QMain; QMain; QT1; QT2; QT1; QT2; QT2; QT1; QMain; QMain; QMain].

(** Thread 1 prints its line, then thread 2; and the other way round. *)
Definition one_then_two : list qagent :=
  [QMain; QMain; QT1; QT1; QT1; QT2; QT2; QT2; QMain; QMain; QMain].

Definition two_then_one : list qagent :=
  [QMain; QMain; QT2; QT2; QT2; QT1; QT1; QT1; QMain; QMain; QMain].

(** The texts that the merges of the two threads' pieces leave. *)
Definition outputs : list string := map flat (merges (pieces 1) (pieces 2)).

(** Two finished lines, with each identifier written once. *)
Definition two_lines (out : string) : bool :=
  (length (lines out) =? 2)%nat
  && (occurrences (ascii_of_nat 10) out =? 2)%nat
  && (occurrences "1"%char out =? 1)%nat
  && (occurrences "2"%char out =? 1)%nat.

(** The schedules in which both threads exist before either writes: the
    merges of the three moves of each thread, between the statements of
    [main]. *)
Definition qschedules : list (list qagent) :=
  map (fun moves => [QMain; QMain] ++ moves ++ [QMain; QMain; QMain])
      (merges [QT1; QT1; QT1] [QT2; QT2; QT2]).

(** The state in which the process has exited with [out] written. *)
Definition qexit_state (out : string) : qstate :=
  QState (Some (1, QDone)) (Some (2, QDone)) (QExited 0) out.

End SimpleMultiThreading.

(** * Properties *)

(** ** Facts about [wrap32] *)

Section Int32Facts.

Lemma wrap32_in_int z : in_int (wrap32 z).
Proof.
  unfold in_int, wrap32, INT_MIN, INT_MAX.
  pose proof (Z.mod_pos_bound (z + 2 ^ 31) (2 ^ 32) ltac:(lia)). lia.
Qed.

Lemma wrap32_id z : in_int z -> wrap32 z = z.
Proof.
  unfold in_int, wrap32, INT_MIN, INT_MAX. intros Hz.
  rewrite Z.mod_small by lia. lia.
Qed.

Lemma wrap32_add_l a b : wrap32 (wrap32 a + b) = wrap32 (a + b).
Proof.
  unfold wrap32.
  replace ((a + 2 ^ 31) mod 2 ^ 32 - 2 ^ 31 + b + 2 ^ 31)
    with ((a + 2 ^ 31) mod 2 ^ 32 + b) by lia.
  rewrite Z.add_mod_idemp_l by lia.
  f_equal. f_equal. lia.
Qed.

Lemma wrap32_le z : INT_MIN <= z -> wrap32 z <= z.
Proof.
  unfold wrap32, INT_MIN. intros Hz.
  pose proof (Z.mod_le (z + 2 ^ 31) (2 ^ 32) ltac:(lia) ltac:(lia)). lia.
Qed.

Lemma wrap32_succ z : in_int z -> z < INT_MAX -> wrap32 (z + 1) = z + 1.
Proof. unfold in_int. intros ? ?. apply wrap32_id. unfold in_int. lia. Qed.

End Int32Facts.

#[global] Arguments wrap32 : simpl never.
#[global] Arguments Counter.total : simpl never.

(** ** Sums over the thread table *)

Section Totals.

Import Counter.

Context (f : pc -> Z).

Lemma total_nil : total f [] = 0.
Proof. reflexivity. Qed.

Lemma total_cons p ws : total f (p :: ws) = f p + total f ws.
Proof. reflexivity. Qed.

Lemma total_app ws1 ws2 : total f (ws1 ++ ws2) = total f ws1 + total f ws2.
Proof.
  induction ws1 as [|p ws1 IH]; [reflexivity|].
  change ((p :: ws1) ++ ws2) with (p :: (ws1 ++ ws2)).
  rewrite !total_cons, IH. lia.
Qed.

Lemma total_insert (ws : list pc) k p q :
  ws !! k = Some p -> total f (<[k := q]> ws) = total f ws - f p + f q.
Proof.
  revert k. induction ws as [|w ws IH]; intros [|k] Hk; try discriminate.
  - injection Hk as ->. change (<[0%nat := q]> (p :: ws)) with (q :: ws).
    rewrite !total_cons. lia.
  - change (<[S k := q]> (w :: ws)) with (w :: <[k := q]> ws).
    rewrite !total_cons, (IH k) by exact Hk. lia.
Qed.

Lemma total_upper hi (ws : list pc) :
  Forall (fun p => f p <= hi) ws -> total f ws <= Z.of_nat (length ws) * hi.
Proof.
  induction 1 as [|w ws Hw _ IH]; [rewrite total_nil; simpl; lia|].
  rewrite total_cons. simpl length. lia.
Qed.

Lemma total_lower lo (ws : list pc) :
  Forall (fun p => lo <= f p) ws -> Z.of_nat (length ws) * lo <= total f ws.
Proof.
  induction 1 as [|w ws Hw _ IH]; [rewrite total_nil; simpl; lia|].
  rewrite total_cons. simpl length. lia.
Qed.

(** With every entry at most [hi], a single entry below [hi] leaves that
    much room under the maximum. *)
Lemma total_slack hi (ws : list pc) k p :
  Forall (fun q => f q <= hi) ws -> ws !! k = Some p ->
  total f ws + (hi - f p) <= Z.of_nat (length ws) * hi.
Proof.
  intros H. revert k. induction H as [|w ws Hw Hws IH]; intros [|k] Hk; try discriminate.
  - injection Hk as ->. rewrite total_cons. simpl length.
    pose proof (total_upper hi ws Hws). lia.
  - rewrite total_cons. simpl length.
    pose proof (IH k Hk). lia.
Qed.

Lemma total_const c (ws : list pc) :
  Forall (fun p => f p = c) ws -> total f ws = Z.of_nat (length ws) * c.
Proof.
  induction 1 as [|w ws Hw _ IH]; [rewrite total_nil; simpl; lia|].
  rewrite total_cons, Hw, IH. simpl length. lia.
Qed.

Lemma total_lookup_le (ws : list pc) k p :
  Forall (fun q => 0 <= f q) ws -> ws !! k = Some p -> f p <= total f ws.
Proof.
  intros H. revert k. induction H as [|w ws Hw Hws IH]; intros [|k] Hk; try discriminate.
  - injection Hk as ->. rewrite total_cons.
    pose proof (total_lower 0 ws Hws). lia.
  - rewrite total_cons. pose proof (IH k Hk). lia.
Qed.

Lemma total_lookup_two (ws : list pc) j k p q :
  Forall (fun q => 0 <= f q) ws -> j <> k ->
  ws !! j = Some p -> ws !! k = Some q -> f p + f q <= total f ws.
Proof.
  intros H. revert j k.
  induction H as [|w ws Hw Hws IH]; intros [|j] [|k] Hjk Hj Hk; try discriminate; try done.
  - injection Hj as ->. rewrite total_cons.
    pose proof (total_lookup_le ws k q Hws Hk). lia.
  - injection Hk as ->. rewrite total_cons.
    pose proof (total_lookup_le ws j p Hws Hj). lia.
  - rewrite total_cons.
    assert (j <> k) by congruence.
    pose proof (IH j k ltac:(done) Hj Hk). lia.
Qed.

End Totals.

(** ** Runs of the counter programs: structure *)

Section CounterRuns.

Import Counter.

Variables (r : regime) (t : nat) (n : Z).

(** Case analysis on the mover, for proofs by induction on a run. *)
Lemma reachable_ind (P : state -> Prop) :
  P (init t) ->
  (forall s s', reachable r t n s -> P s -> main t s = Some s' -> P s') ->
  (forall m ws mp out k p p' m',
      reachable r t n (State m ws mp out) -> P (State m ws mp out) ->
      ws !! k = Some p -> incrementCounter r n p m = Some (p', m') ->
      P (State m' (<[k := p']> ws) mp out)) ->
  forall s, reachable r t n s -> P s.
Proof.
  intros Hinit Hmain Hworker. unfold reachable.
  apply rtc_ind_r; [exact Hinit|].
  intros s1 s2 Hs1 [a Ha] IH. destruct a as [|k].
  - eapply Hmain; eauto.
  - destruct s1 as [m ws mp out]. simpl in Ha.
    destruct (ws !! k) as [p|] eqn:Hk; [|discriminate].
    destruct (incrementCounter r n p m) as [[p' m']|] eqn:Hp; [|discriminate].
    injection Ha as <-. eapply Hworker; eauto.
Qed.

Lemma reachable_step s s' :
  reachable r t n s -> steps r t n s s' -> reachable r t n s'.
Proof. intros Hs Hstep. eapply rtc_r; eauto. Qed.

(** A schedule that runs through is a run. *)
Lemma run_steps sched s s' :
  run r t n sched s = Some s' -> rtc (steps r t n) s s'.
Proof.
  revert s. induction sched as [|a sched IH]; intros s H; simpl in H.
  - injection H as <-. apply rtc_refl.
  - destruct (step r t n a s) as [s1|] eqn:Ha; [|discriminate].
    eapply rtc_l; [exists a; exact Ha | apply IH, H].
Qed.

Lemma run_nsteps sched s s' :
  run r t n sched s = Some s' -> nsteps (steps r t n) (length sched) s s'.
Proof.
  revert s. induction sched as [|a sched IH]; intros s H; simpl in H.
  - injection H as <-. constructor.
  - destruct (step r t n a s) as [s1|] eqn:Ha; [|discriminate].
    simpl. econstructor; [exists a; exact Ha | apply IH, H].
Qed.

Lemma run_reachable sched s :
  run r t n sched (init t) = Some s -> reachable r t n s.
Proof. apply run_steps. Qed.

Hypothesis n_range : 0 <= n <= INT_MAX.

Lemma wf_pc_move p m p' m' :
  wf_pc r n p -> incrementCounter r n p m = Some (p', m') -> wf_pc r n p'.
Proof.
  intros Hp H. destruct p; simpl in *; simplify_eq.
  - destruct (Z.ltb_spec i n); [|done].
    destruct r; simpl; split; (done || lia).
  - destruct (mtx m); simplify_eq. simpl. intuition congruence.
  - simpl. tauto.
  - destruct Hp as [Hr Hi]. destruct r; simpl; tauto.
  - simpl. tauto.
  - simpl. tauto.
  - simpl. rewrite wrap32_succ; unfold in_int, INT_MIN in *; lia.
Qed.

Lemma done_stuck m : incrementCounter r n PDone m = None.
Proof. reflexivity. Qed.

Lemma shape_invariant s : reachable r t n s -> shape r t n s.
Proof.
  revert s. apply reachable_ind;
    [|intros s s' _ [Hwf Hmain] Hstep
     |intros m ws mp out k p p' m' _ [Hwf Hmain] Hk Hp].
  - split; [constructor|].
    unfold main_ok, init, spawn_from, join_from; simpl.
    destruct (Nat.ltb_spec 0 t); simpl; [lia|]. split; [lia|constructor].
  - unfold main in Hstep. unfold main_ok in Hmain.
    destruct s as [m ws mp out]; simpl in *.
    destruct mp; simplify_eq; unfold shape, main_ok; simpl.
    + split.
      * apply Forall_app; split; [done|]. constructor; [simpl; lia|constructor].
      * destruct Hmain as [Hlen Hlt].
        unfold spawn_from, join_from.
        destruct (Nat.ltb_spec (S k) t); simpl.
        { rewrite length_app; simpl; lia. }
        destruct (Nat.ltb_spec 0 t); simpl; [|lia].
        rewrite length_app; simpl. repeat split; lia.
    + destruct (ws !! k) as [[]|] eqn:Hk; simplify_eq. simpl.
      split; [done|]. destruct Hmain as (Hlen & Hlt & Hdone).
      unfold join_from. destruct (Nat.ltb_spec (S k) t); simpl.
      * repeat split; try lia. intros j Hj.
        destruct (decide (j = k)) as [->|]; [done|apply Hdone; lia].
      * split; [done|]. apply Forall_lookup. intros j p Hj.
        assert (j < length ws)%nat by (eapply lookup_lt_Some; eauto).
        destruct (decide (j = k)) as [->|]; [congruence|].
        rewrite Hdone in Hj by lia. congruence.
    + done.
    + done.
    + done.
    + done.
  - unfold shape, main_ok in *; simpl in *. split.
    + apply Forall_insert; [done|].
      eapply wf_pc_move; [|exact Hp]. eapply Forall_lookup_1; eauto.
    + assert (p <> PDone) by (intros ->; discriminate).
      rewrite length_insert.
      destruct mp; try (destruct Hmain as [Hlen Hall]; exfalso;
        eapply Forall_lookup_1 in Hall; eauto; done).
      * done.
      * destruct Hmain as (Hlen & Hlt & Hdone). repeat split; try done.
        intros j Hj. rewrite list_lookup_insert_ne; [by apply Hdone|].
        intros ->. rewrite Hdone in Hk by done. congruence.
Qed.

End CounterRuns.

(** ** Invariants of the counter programs *)

Section CounterInvariants.

Import Counter.

Variables (r : regime) (t : nat) (n : Z).
Hypothesis n_range : 0 <= n <= INT_MAX.

Lemma committed_range p : wf_pc r n p -> 0 <= committed n p <= n.
Proof. destruct p; simpl; lia. Qed.

Lemma committed_upper ws :
  Forall (wf_pc r n) ws -> Forall (fun p => committed n p <= n) ws.
Proof. intros H. eapply Forall_impl; [exact H|]. intros p Hp. apply committed_range, Hp. Qed.

Lemma committed_lower ws :
  Forall (wf_pc r n) ws -> Forall (fun p => 0 <= committed n p) ws.
Proof. intros H. eapply Forall_impl; [exact H|]. intros p Hp. apply committed_range, Hp. Qed.

Lemma total_committed_nonneg ws :
  Forall (wf_pc r n) ws -> 0 <= total (committed n) ws.
Proof.
  intros H. pose proof (total_lower (committed n) 0 ws (committed_lower ws H)). lia.
Qed.

Lemma shape_length s : shape r t n s -> (length (workers s) <= t)%nat.
Proof.
  intros [_ H]. unfold main_ok in H. destruct (main_pc s); lia.
Qed.

Lemma total_committed_max s :
  shape r t n s -> total (committed n) (workers s) <= Z.of_nat t * n.
Proof.
  intros Hs. pose proof (shape_length s Hs). destruct Hs as [Hwf _].
  pose proof (total_upper (committed n) n _ (committed_upper _ Hwf)). nia.
Qed.

(** A thread with iterations left keeps the sum below its maximum. *)
Lemma total_committed_slack s k p :
  shape r t n s -> workers s !! k = Some p ->
  total (committed n) (workers s) + (n - committed n p) <= Z.of_nat t * n.
Proof.
  intros Hs Hk. pose proof (shape_length s Hs). destruct Hs as [Hwf _].
  pose proof (total_slack (committed n) n _ k p (committed_upper _ Hwf) Hk). nia.
Qed.

(** The effect of one move on the number of finished increments. *)
Lemma committed_move p m p' m' :
  wf_pc r n p -> incrementCounter r n p m = Some (p', m') ->
  committed n p' = committed n p + writes p.
Proof.
  intros Hp H. destruct p; simpl in *; simplify_eq.
  - destruct (Z.ltb_spec i n); [destruct r; simpl; lia | simpl; lia].
  - destruct (mtx m); simplify_eq. simpl. lia.
  - simpl. lia.
  - destruct r; simpl; lia.
  - simpl. lia.
  - simpl. lia.
  - simpl. rewrite wrap32_succ; unfold in_int, INT_MIN in *; lia.
Qed.

(** The effect of one move on memory. *)
Lemma counter_move p m p' m' :
  incrementCounter r n p m = Some (p', m') ->
  counter m' =
    match p with
    | PStore _ v => wrap32 (v + 1)
    | PFetchAdd _ => wrap32 (counter m + 1)
    | _ => counter m
    end.
Proof.
  intros H. destruct p; simpl in *; simplify_eq; try done.
  destruct (mtx m); simplify_eq. done.
Qed.

(** Only the read half of [counter++] leads to its write half. *)
Lemma move_to_store p m i v m' :
  incrementCounter r n p m = Some (PStore i v, m') ->
  p = PLoad i /\ v = counter m /\ m' = m.
Proof.
  destruct p; simpl; intros H; simplify_eq; try done.
  - destruct (i0 <? n), r; simplify_eq.
  - destruct (mtx m); simplify_eq.
  - destruct r; simplify_eq.
Qed.

Lemma bounded_invariant s : reachable r t n s -> bounded n s.
Proof.
  intros Hs. pose proof (shape_invariant r t n n_range s Hs) as Hshape.
  revert s Hs Hshape. apply (reachable_ind r t n (fun s => shape r t n s -> bounded n s)).
  - intros _. unfold bounded, init; simpl. rewrite total_nil.
    split_and!; try (unfold in_int, INT_MIN, INT_MAX; lia).
    intros k i v Hk. by rewrite lookup_nil in Hk.
  - intros s s' Hs IH Hstep Hshape'.
    specialize (IH (shape_invariant r t n n_range s Hs)).
    unfold main in Hstep. destruct s as [m ws mp out]; simpl in *.
    unfold bounded in *; simpl in *.
    destruct mp; simplify_eq; simpl; try done.
    + rewrite total_app, total_cons, total_nil. simpl.
      replace (total (committed n) ws + (0 + 0)) with (total (committed n) ws) by lia.
      destruct IH as (H1 & H2 & H3). split_and!; try done.
      intros j i v Hj. apply lookup_app_Some in Hj as [Hj|[_ Hj]]; [by eapply H3|].
      by destruct (j - length ws)%nat.
    + destruct (ws !! k) as [[]|]; simplify_eq. done.
  - intros m ws mp out k p p' m' Hs IH Hk Hp Hshape'.
    pose proof (shape_invariant r t n n_range _ Hs) as Hshape.
    specialize (IH Hshape). unfold bounded in *; simpl in *.
    destruct IH as (H1 & H2 & H3).
    assert (Hwfp : wf_pc r n p) by (destruct Hshape as [Hwf _]; eapply Forall_lookup_1; eauto).
    pose proof (committed_move _ _ _ _ Hwfp Hp) as Hc. unfold writes in Hc.
    pose proof (counter_move _ _ _ _ Hp) as Hm.
    rewrite (total_insert _ _ _ _ _ Hk), Hc, Hm.
    assert (Hk' : (k < length ws)%nat) by (eapply lookup_lt_Some; eauto).
    assert (Hgrow : 0 <= writes p) by (destruct p; simpl; lia). unfold writes in Hgrow.
    split_and!.
    + destruct p; try done; apply wrap32_in_int.
    + destruct p; try lia.
      * destruct (H3 _ _ _ Hk) as [Hv1 Hv2].
        pose proof (wrap32_le (v + 1) ltac:(unfold in_int, INT_MIN in *; lia)). lia.
      * pose proof (wrap32_le (counter m + 1) ltac:(unfold in_int, INT_MIN in *; lia)). lia.
    + intros j i v Hj. destruct (decide (j = k)) as [->|Hjk].
      * rewrite list_lookup_insert_eq in Hj by done. simplify_eq.
        apply move_to_store in Hp as (-> & -> & ->). split; [done|lia].
      * rewrite list_lookup_insert_ne in Hj by done.
        destruct (H3 _ _ _ Hj). split; [done|lia].
Qed.

Lemma holders_nonneg ws : Forall (fun p => 0 <= (if in_body p then 1 else 0)) ws.
Proof. apply Forall_forall. intros p _. destruct (in_body p); lia. Qed.

Lemma holders_one ws k p :
  ws !! k = Some p -> in_body p = true -> 1 <= holders ws.
Proof.
  intros Hk Hp. unfold holders.
  pose proof (total_lookup_le _ ws k p (holders_nonneg ws) Hk) as H.
  simpl in H. rewrite Hp in H. exact H.
Qed.

Lemma holders_two ws j k p q :
  j <> k -> ws !! j = Some p -> ws !! k = Some q ->
  in_body p = true -> in_body q = true -> 2 <= holders ws.
Proof.
  intros Hjk Hj Hk Hp Hq. unfold holders.
  pose proof (total_lookup_two _ ws j k p q (holders_nonneg ws) Hjk Hj Hk) as H.
  simpl in H. rewrite Hp, Hq in H. exact H.
Qed.

(** [mutex.cpp]: the lock discipline. *)
Lemma lock_invariant s : r = MUTEX -> reachable r t n s -> lock_inv s.
Proof.
  intros Hr Hs. pose proof (shape_invariant r t n n_range s Hs) as Hshape.
  revert s Hs Hshape. apply (reachable_ind r t n (fun s => shape r t n s -> lock_inv s)).
  - intros _. unfold lock_inv, init, holders; simpl. rewrite total_nil.
    split; [done|]. intros k i v Hk. by rewrite lookup_nil in Hk.
  - intros s s' Hs IH Hstep Hshape'.
    specialize (IH (shape_invariant r t n n_range s Hs)).
    unfold main in Hstep. destruct s as [m ws mp out]; simpl in *.
    unfold lock_inv in *; simpl in *.
    destruct mp; simplify_eq; simpl; try done.
    + unfold holders in *. rewrite total_app, total_cons, total_nil. simpl.
      destruct IH as (H1 & H2). split; [lia|].
      intros j i v Hj. apply lookup_app_Some in Hj as [Hj|[_ Hj]]; [by eapply H2|].
      by destruct (j - length ws)%nat.
    + destruct (ws !! k) as [[]|]; simplify_eq. done.
  - intros m ws mp out k p p' m' Hs IH Hk Hp Hshape'.
    pose proof (shape_invariant r t n n_range _ Hs) as Hshape.
    specialize (IH Hshape). unfold lock_inv in *; simpl in *.
    destruct IH as (H1 & H2).
    assert (Hwfp : wf_pc r n p) by (destruct Hshape as [Hwf _]; eapply Forall_lookup_1; eauto).
    assert (Hk' : (k < length ws)%nat) by (eapply lookup_lt_Some; eauto).
    unfold holders in *. rewrite (total_insert _ _ _ _ _ Hk).
    assert (Hstore : forall i v, p' = PStore i v -> v = counter m /\ m' = m).
    { intros i v ->. apply move_to_store in Hp. tauto. }
    assert (Hothers : counter m' = counter m ->
      forall j i v, <[k:=p']> ws !! j = Some (PStore i v) -> v = counter m').
    { intros Hsame j i v Hj. rewrite Hsame. destruct (decide (j = k)) as [->|Hjk].
      - rewrite list_lookup_insert_eq in Hj by done. simplify_eq.
        by destruct (Hstore i v eq_refl).
      - rewrite list_lookup_insert_ne in Hj by done. eauto. }
    destruct p; simpl in Hp, Hwfp; simplify_eq; simpl.
    + split; [|by apply Hothers]. destruct (i <? n); simpl; lia.
    + destruct (mtx m); simplify_eq. simpl. split; [lia|by apply Hothers].
    + split; [lia|by apply Hothers].
    + split; [lia|]. intros j i' v' Hj. exfalso.
      destruct (decide (j = k)) as [->|Hjk].
      * rewrite list_lookup_insert_eq in Hj by done. simplify_eq.
      * rewrite list_lookup_insert_ne in Hj by done.
        pose proof (holders_two ws j k _ _ Hjk Hj Hk eq_refl eq_refl) as Htwo.
        unfold holders in Htwo. destruct (mtx m); lia.
    + split; [|by apply Hothers].
      pose proof (holders_one ws k _ Hk eq_refl) as Hone.
      unfold holders in Hone. destruct (mtx m); lia.
    + destruct Hwfp; congruence.
    + split; [lia|by apply Hothers].
Qed.

(** [mutex.cpp] and [atomic.cpp]: every increment is counted. *)
Lemma exact_invariant s : r <> NONE -> reachable r t n s -> exact n s.
Proof.
  intros Hr Hs. pose proof Hs as Hs0. revert s Hs Hs0.
  apply (reachable_ind r t n (fun s => reachable r t n s -> exact n s)).
  - intros _. unfold exact, init; simpl. by rewrite total_nil.
  - intros s s' Hs IH Hstep _. specialize (IH Hs).
    unfold main in Hstep. destruct s as [m ws mp out]; simpl in *.
    unfold exact in *; simpl in *.
    destruct mp; simplify_eq; simpl; try done.
    + rewrite total_app, total_cons, total_nil. simpl.
      rewrite IH. f_equal. lia.
    + destruct (ws !! k) as [[]|]; simplify_eq. done.
  - intros m ws mp out k p p' m' Hs IH Hk Hp _. specialize (IH Hs).
    pose proof (shape_invariant r t n n_range _ Hs) as Hshape.
    unfold exact in *; simpl in *.
    assert (Hwfp : wf_pc r n p) by (destruct Hshape as [Hwf _]; eapply Forall_lookup_1; eauto).
    pose proof (committed_move _ _ _ _ Hwfp Hp) as Hc. unfold writes in Hc.
    pose proof (counter_move _ _ _ _ Hp) as Hm.
    rewrite (total_insert _ _ _ _ _ Hk), Hc, Hm.
    destruct p; try (rewrite IH; f_equal; lia).
    + assert (r = MUTEX) as HM by (simpl in Hwfp; destruct r; intuition congruence).
      destruct (lock_invariant _ HM Hs) as [_ H2]. simpl in H2.
      rewrite (H2 _ _ _ Hk), IH, wrap32_add_l. f_equal. lia.
    + rewrite IH, wrap32_add_l. f_equal. lia.
Qed.

End CounterInvariants.

(** ** Every run of a counter program ends *)

Section CounterTermination.

Import Counter.

Variables (r : regime) (t : nat) (n : Z).
Hypothesis n_range : 0 <= n <= INT_MAX.

Lemma remaining_move p m p' m' :
  wf_pc r n p -> incrementCounter r n p m = Some (p', m') ->
  remaining r n p' = remaining r n p - 1.
Proof.
  intros Hp H. destruct p; simpl in *; simplify_eq.
  - destruct (Z.ltb_spec i n); [destruct r; simpl; lia|].
    replace (n - i) with 0 by lia. simpl. lia.
  - destruct (mtx m); simplify_eq. destruct Hp as [-> _]. simpl. lia.
  - simpl. destruct r; lia.
  - destruct Hp as [Hr _]. destruct r; simpl; try lia. congruence.
  - destruct Hp as [-> _]. simpl. lia.
  - destruct Hp as [-> _]. simpl. lia.
  - simpl. rewrite wrap32_succ; unfold in_int, INT_MIN in *; lia.
Qed.

Lemma remaining_nonneg p : wf_pc r n p -> 0 <= remaining r n p.
Proof.
  intros Hp. destruct p; simpl in *; try lia;
    destruct Hp as [Hr Hi] || idtac; destruct r; simpl; try congruence; nia.
Qed.

Lemma per_iter_pos : 0 < per_iter r.
Proof. destruct r; simpl; lia. Qed.

Lemma measure_nonneg s : shape r t n s -> 0 <= measure r t n s.
Proof.
  intros Hs. pose proof (shape_length r t n s Hs) as Hlen.
  destruct Hs as [Hwf Hmain]. unfold measure.
  assert (0 <= total (remaining r n) (workers s)).
  { assert (Forall (fun p => 0 <= remaining r n p) (workers s)) as H
      by (eapply Forall_impl; [exact Hwf|]; apply remaining_nonneg).
    pose proof (total_lower _ 0 _ H). lia. }
  assert (0 <= main_remaining t (main_pc s)).
  { unfold main_ok in Hmain. destruct (main_pc s); simpl; lia. }
  pose proof per_iter_pos.
  assert (0 <= per_iter r * n + 1) by nia.
  assert (0 <= Z.of_nat t - Z.of_nat (length (workers s))) by lia.
  nia.
Qed.

(** Each move uses up exactly one unit. *)
Lemma measure_step s s' :
  reachable r t n s -> steps r t n s s' -> measure r t n s' = measure r t n s - 1.
Proof.
  intros Hs [a Ha]. destruct (shape_invariant r t n n_range s Hs) as [Hwf Hmain].
  destruct s as [m ws mp out]. unfold measure, main_ok in *. simpl in *.
  destruct a as [|k]; simpl in Ha.
  - unfold main in Ha; simpl in Ha. destruct mp; simplify_eq; simpl; try lia.
    + destruct Hmain as [Hlen Hlt]. rewrite total_app, total_cons, total_nil, length_app.
      simpl. unfold spawn_from, join_from.
      destruct (Nat.ltb_spec (S k) t); simpl; [lia|].
      destruct (Nat.ltb_spec 0 t); simpl; lia.
    + destruct (ws !! k) as [[]|]; simplify_eq. simpl.
      unfold join_from. destruct (Nat.ltb_spec (S k) t); simpl; lia.
  - destruct (ws !! k) as [p|] eqn:Hk; [|discriminate].
    destruct (incrementCounter r n p m) as [[p' m']|] eqn:Hp; [|discriminate].
    injection Ha as <-. simpl.
    assert (wf_pc r n p) as Hwfp by (eapply Forall_lookup_1; eauto).
    rewrite (total_insert _ _ _ _ _ Hk), length_insert,
      (remaining_move _ _ _ _ Hwfp Hp). lia.
Qed.

(** The length of a run is the measure it has used up, so no run is longer
    than the measure of the initial state. *)
Lemma run_length k s :
  nsteps (steps r t n) k (init t) s ->
  Z.of_nat k = measure r t n (init t) - measure r t n s.
Proof.
  revert s. induction k as [|k IH]; intros s Hk.
  - inversion Hk; subst. lia.
  - apply nsteps_inv_r in Hk as (s1 & Hk & Hstep).
    specialize (IH _ Hk).
    assert (reachable r t n s1) by (eapply rtc_nsteps_2; eauto).
    rewrite (measure_step s1 s) by done. lia.
Qed.

Lemma in_body_moves p m :
  in_body p = true -> exists p' m', incrementCounter r n p m = Some (p', m').
Proof. destruct p; simpl; intros; simplify_eq; eauto. Qed.

Lemma holders_witness ws :
  1 <= holders ws -> exists k p, ws !! k = Some p /\ in_body p = true.
Proof.
  unfold holders. induction ws as [|w ws IH]; [rewrite total_nil; lia|].
  rewrite total_cons. destruct (in_body w) eqn:Hw.
  - intros _. exists 0%nat, w. done.
  - intros H. destruct IH as (k & p & Hk & Hp); [lia|].
    exists (S k), p. done.
Qed.

Lemma worker_moves m ws mp out k p p' m' :
  ws !! k = Some p -> incrementCounter r n p m = Some (p', m') ->
  steps r t n (State m ws mp out) (State m' (<[k := p']> ws) mp out).
Proof. intros Hk Hp. exists (Worker k). simpl. by rewrite Hk, Hp. Qed.

(** No deadlock: before [main] has exited, somebody can move. *)
Lemma progress s :
  reachable r t n s -> ~ exited s -> exists s', steps r t n s s'.
Proof.
  intros Hs Hne. destruct (shape_invariant r t n n_range s Hs) as [Hwf Hmain].
  destruct s as [m ws mp out]. unfold main_ok, exited in *. simpl in *.
  destruct mp;
    try (eexists; exists Main; unfold step, main; simpl; reflexivity).
  - destruct Hmain as (Hlen & Hlt & _).
    destruct (lookup_lt_is_Some_2 ws k ltac:(lia)) as [p Hk].
    destruct (incrementCounter r n p m) as [[p' m']|] eqn:Hp.
    { eexists. eapply worker_moves; eauto. }
    destruct p; simpl in Hp; try discriminate.
    + destruct (mtx m) eqn:Hmtx; [|discriminate].
      assert (r = MUTEX) as Hr
        by (eapply Forall_lookup_1 in Hwf; [|exact Hk]; simpl in Hwf; tauto).
      destruct (lock_invariant r t n n_range _ Hr Hs) as [Hh _]. simpl in Hh.
      rewrite Hmtx in Hh.
      destruct (holders_witness ws ltac:(lia)) as (j & q & Hj & Hq).
      destruct (in_body_moves q m Hq) as (q' & m' & Hmove).
      eexists. eapply worker_moves; eauto.
    + eexists; exists Main; unfold step, main; simpl. rewrite Hk. reflexivity.
  - exfalso. eauto.
Qed.

(** Every run can be continued to the exit of [main], and, by
    [run_length], cannot be continued for ever. *)
Lemma completes s :
  reachable r t n s -> exists s', rtc (steps r t n) s s' /\ exited s'.
Proof.
  intros Hs.
  remember (Z.to_nat (measure r t n s)) as k eqn:Hk.
  revert s Hs Hk. induction k as [k IH] using lt_wf_ind. intros s Hs Hk.
  assert (Hdec : exited s \/ ~ exited s).
  { unfold exited. destruct (main_pc s); eauto; right; intros [c Hc]; discriminate. }
  destruct Hdec as [Hex|Hne]; [exists s; split; [apply rtc_refl|done]|].
  destruct (progress s Hs Hne) as [s1 Hstep].
  pose proof (measure_step s s1 Hs Hstep) as Hm.
  assert (reachable r t n s1) as Hs1 by (eapply reachable_step; eauto).
  pose proof (measure_nonneg s1 (shape_invariant r t n n_range s1 Hs1)).
  destruct (IH (Z.to_nat (measure r t n s1)) ltac:(lia) s1 Hs1 eq_refl)
    as (s' & Hrun & Hex).
  exists s'. split; [eapply rtc_l; eauto|done].
Qed.

Lemma some_run_completes : exists s, final r t n s.
Proof.
  destruct (completes (init t) (rtc_refl _ _)) as (s & Hrun & Hex).
  exists s. split; done.
Qed.

End CounterTermination.

(** ** Complete runs of the counter programs *)

Section CounterFinal.

Import Counter.

Variables (r : regime) (t : nat) (n : Z).
Hypothesis n_range : 0 <= n <= INT_MAX.

Lemma append_assoc (a b c : string) : ((a ++ b) ++ c = a ++ (b ++ c))%string.
Proof. induction a as [|x a IH]; simpl; [done|by rewrite IH]. Qed.

(** Once [main] is past the joins, every thread has returned. *)
Lemma joined_all_done s :
  reachable r t n s ->
  match main_pc s with MSpawn _ | MJoin _ => False | _ => True end ->
  length (workers s) = t /\ Forall (fun p => p = PDone) (workers s).
Proof.
  intros Hs Hpc. destruct (shape_invariant r t n n_range s Hs) as [_ Hmain].
  unfold main_ok in Hmain. destruct (main_pc s); done.
Qed.

Lemma final_all_done s :
  final r t n s ->
  length (workers s) = t /\ Forall (fun p => p = PDone) (workers s).
Proof.
  intros [Hs [code Hc]]. apply joined_all_done; [done|]. by rewrite Hc.
Qed.

Lemma final_total s :
  final r t n s -> total (committed n) (workers s) = Z.of_nat t * n.
Proof.
  intros Hf. destruct (final_all_done s Hf) as [Hlen Hall].
  rewrite (total_const (committed n) n).
  - by rewrite Hlen.
  - eapply Forall_impl; [exact Hall|]. by intros p ->.
Qed.

Opaque label endl decimal.

Lemma out_invariant s : reachable r t n s -> out_inv s.
Proof.
  intros Hs. pose proof Hs as Hs0. revert s Hs Hs0.
  apply (reachable_ind r t n (fun s => reachable r t n s -> out_inv s)).
  - intros _. unfold out_inv, init, spawn_from, join_from; simpl.
    destruct (0 <? t)%nat; done.
  - intros s s' Hs IH Hstep _. specialize (IH Hs).
    unfold main in Hstep. destruct s as [m ws mp out]; simpl in *.
    unfold out_inv in *; simpl in *.
    destruct mp; simplify_eq; simpl.
    + unfold spawn_from, join_from.
      destruct (S k <? t)%nat, (0 <? t)%nat; done.
    + destruct (ws !! k) as [[]|]; simplify_eq. simpl.
      unfold join_from. destruct (S k <? t)%nat; done.
    + done.
    + done.
    + by rewrite append_assoc.
    + done.
  - intros m ws mp out k p p' m' Hs IH Hk Hp _. specialize (IH Hs).
    unfold out_inv in *; simpl in *.
    destruct mp; try done;
      (destruct (joined_all_done _ Hs I) as [_ Hall]; simpl in Hall;
       eapply Forall_lookup_1 in Hall; [|exact Hk]; subst p; discriminate).
Qed.

Transparent label endl decimal.

(** What a complete run leaves on standard output, and its exit code. *)
Lemma final_output s :
  final r t n s ->
  cout s = (label ++ decimal (counter (mem s)) ++ endl)%string /\
  main_pc s = MExited 0.
Proof.
  intros [Hs [code Hc]]. pose proof (out_invariant s Hs) as H.
  unfold out_inv in H. rewrite Hc in H. destruct H as [H ->]. done.
Qed.

(** [mutex.cpp], [atomic.cpp]: the final value. *)
Lemma final_exact s :
  r <> NONE -> final r t n s -> counter (mem s) = wrap32 (Z.of_nat t * n).
Proof.
  intros Hr Hf. rewrite <- (final_total s Hf).
  apply (exact_invariant r t n n_range s Hr), Hf.
Qed.

(** Any file: the final value is an [int] and at most [t * n]. *)
Lemma final_upper s :
  reachable r t n s -> in_int (counter (mem s)) /\ counter (mem s) <= Z.of_nat t * n.
Proof.
  intros Hs. destruct (bounded_invariant r t n n_range s Hs) as (H1 & H2 & _).
  pose proof (total_committed_max r t n n_range s (shape_invariant r t n n_range s Hs)).
  split; [done|lia].
Qed.

End CounterFinal.

(** ** Runs whose increments all fit in an [int] *)

Section CounterFits.

Import Counter.

Variables (r : regime) (t : nat) (n : Z).
Hypothesis n_range : 0 <= n <= INT_MAX.
Hypothesis fits : Z.of_nat t * n <= INT_MAX.

(** No increment that a thread is about to perform wraps around. *)
Lemma no_wrap_invariant s k p :
  reachable r t n s -> workers s !! k = Some p -> no_wrap p (mem s).
Proof.
  intros Hs Hk.
  pose proof (shape_invariant r t n n_range s Hs) as Hshape.
  destruct (bounded_invariant r t n n_range s Hs) as (H1 & H2 & H3).
  pose proof (total_committed_slack r t n n_range s k p Hshape Hk) as Hslack.
  assert (wf_pc r n p) as Hwf by (destruct Hshape as [Hwf _]; eapply Forall_lookup_1; eauto).
  destruct p; simpl in *; try done.
  - destruct (H3 _ _ _ Hk) as [Hv1 Hv2].
    apply wrap32_id. unfold in_int, INT_MIN in *. lia.
  - apply wrap32_id. unfold in_int, INT_MIN in *. lia.
  - apply wrap32_id. unfold in_int, INT_MIN in *. lia.
Qed.

(** The effect of a move on [counter] when nothing wraps. *)
Lemma counter_move_fit m ws mp out k p p' m' :
  reachable r t n (State m ws mp out) ->
  ws !! k = Some p -> incrementCounter r n p m = Some (p', m') ->
  counter m' =
    match p with
    | PStore _ v => v + 1
    | PFetchAdd _ => counter m + 1
    | _ => counter m
    end.
Proof.
  intros Hs Hk Hp. rewrite (counter_move r n _ _ _ _ Hp).
  pose proof (no_wrap_invariant _ k p Hs Hk) as Hw.
  destruct p; simpl in Hw; done.
Qed.

Lemma nonneg_invariant s : reachable r t n s -> nonneg s.
Proof.
  intros Hs. pose proof Hs as Hs0. revert s Hs Hs0.
  apply (reachable_ind r t n (fun s => reachable r t n s -> nonneg s)).
  - intros _. unfold nonneg, init; simpl. split; [lia|].
    intros k i v Hk. by rewrite lookup_nil in Hk.
  - intros s s' Hs IH Hstep _. specialize (IH Hs).
    unfold main in Hstep. destruct s as [m ws mp out]; simpl in *.
    unfold nonneg in *; simpl in *.
    destruct mp; simplify_eq; simpl; try done.
    + destruct IH as [H1 H2]. split; [done|].
      intros j i v Hj. apply lookup_app_Some in Hj as [Hj|[_ Hj]]; [by eapply H2|].
      by destruct (j - length ws)%nat.
    + destruct (ws !! k) as [[]|]; simplify_eq. done.
  - intros m ws mp out k p p' m' Hs IH Hk Hp _. specialize (IH Hs).
    unfold nonneg in *; simpl in *. destruct IH as [H1 H2].
    pose proof (counter_move_fit _ _ _ _ _ _ _ _ Hs Hk Hp) as Hm.
    assert (Hk' : (k < length ws)%nat) by (eapply lookup_lt_Some; eauto).
    split.
    + rewrite Hm. destruct p; try done; [specialize (H2 _ _ _ Hk)|]; lia.
    + intros j i v Hj. destruct (decide (j = k)) as [->|Hjk].
      * rewrite list_lookup_insert_eq in Hj by done. simplify_eq.
        apply move_to_store in Hp as (-> & -> & ->). done.
      * rewrite list_lookup_insert_ne in Hj by done. eauto.
Qed.

(** [mutex.cpp], [atomic.cpp]: no move lowers [counter]. *)
Lemma monotone s s' :
  r <> NONE -> reachable r t n s -> steps r t n s s' ->
  counter (mem s) <= counter (mem s').
Proof.
  intros Hr Hs [a Ha]. destruct s as [m ws mp out]. destruct a as [|k]; simpl in Ha.
  - unfold main in Ha; simpl in Ha.
    destruct mp; simplify_eq; simpl; try lia.
    destruct (ws !! k) as [[]|]; simplify_eq. simpl. lia.
  - destruct (ws !! k) as [p|] eqn:Hk; [|discriminate].
    destruct (incrementCounter r n p m) as [[p' m']|] eqn:Hp; [|discriminate].
    injection Ha as <-. simpl.
    rewrite (counter_move_fit _ _ _ _ _ _ _ _ Hs Hk Hp).
    destruct p; try lia.
    assert (r = MUTEX) as HM.
    { destruct (shape_invariant r t n n_range _ Hs) as [Hwf _].
      eapply Forall_lookup_1 in Hwf; [|exact Hk]. simpl in Hwf.
      destruct r; intuition congruence. }
    destruct (lock_invariant r t n n_range _ HM Hs) as [_ H2]. simpl in H2.
    rewrite (H2 _ _ _ Hk). lia.
Qed.

(** [raceCondition.cpp]: what lost updates cannot undo. *)
Lemma racy_invariant s :
  r = NONE -> (1 <= t)%nat -> reachable r t n s -> racy_inv t n s.
Proof.
  intros Hr Ht Hs. pose proof Hs as Hs0. revert s Hs Hs0.
  apply (reachable_ind r t n (fun s => reachable r t n s -> racy_inv t n s)).
  - intros Hs. unfold racy_inv, init; simpl. rewrite total_nil. split_and!.
    + lia.
    + intros k i v Hk. by rewrite lookup_nil in Hk.
    + intros Hn. right. nia.
  - intros s s' Hs IH Hstep _. specialize (IH Hs).
    unfold main in Hstep. destruct s as [m ws mp out]; simpl in *.
    unfold racy_inv in *; simpl in *.
    destruct mp; simplify_eq; simpl; try done.
    + rewrite total_app, total_cons, total_nil. simpl.
      replace (total (committed n) ws + (0 + 0)) with (total (committed n) ws) by lia.
      destruct IH as (H1 & H2 & H3). split_and!; try done.
      intros j i v Hj. apply lookup_app_Some in Hj as [Hj|[_ Hj]]; [by eapply H2|].
      by destruct (j - length ws)%nat.
    + destruct (ws !! k) as [[]|]; simplify_eq. done.
  - intros m ws mp out k p p' m' Hs IH Hk Hp Hs'. specialize (IH Hs).
    pose proof (shape_invariant r t n n_range _ Hs) as Hshape.
    pose proof (shape_invariant r t n n_range _ Hs') as Hshape'.
    destruct (nonneg_invariant _ Hs) as [N1 N2]. simpl in N1, N2.
    unfold racy_inv in *; simpl in *. destruct IH as (H1 & H2 & H3).
    assert (Hwfp : wf_pc r n p) by (destruct Hshape as [Hwf _]; eapply Forall_lookup_1; eauto).
    pose proof (committed_move r n n_range _ _ _ _ Hwfp Hp) as Hc. unfold writes in Hc.
    pose proof (counter_move_fit _ _ _ _ _ _ _ _ Hs Hk Hp) as Hm.
    assert (Hk' : (k < length ws)%nat) by (eapply lookup_lt_Some; eauto).
    pose proof (total_committed_slack r t n n_range _ k p' Hshape'
                  ltac:(simpl; by apply list_lookup_insert_eq)) as Hslack.
    simpl in Hslack. revert Hslack.
    rewrite (total_insert _ _ _ _ _ Hk), Hc, Hm. intros Hslack.
    pose proof (total_committed_nonneg r n n_range ws ltac:(apply Hshape)) as HT.
    pose proof (total_lookup_le (committed n) ws k p
                  (committed_lower r n n_range ws ltac:(apply Hshape)) Hk) as Hle.
    split_and!.
    + destruct p; try lia; try (simpl in Hwfp; destruct Hwfp; congruence).
      specialize (N2 _ _ _ Hk). lia.
    + intros j i v Hj Hi. destruct (decide (j = k)) as [->|Hjk].
      * rewrite list_lookup_insert_eq in Hj by done. simplify_eq.
        apply move_to_store in Hp as (-> & -> & ->). simpl in Hle. lia.
      * rewrite list_lookup_insert_ne in Hj by done. eauto.
    + intros Hn. specialize (H3 Hn).
      destruct p; try lia; try (simpl in Hwfp; destruct Hwfp; congruence).
      specialize (H2 _ _ _ Hk). specialize (N2 _ _ _ Hk). simpl in *.
      destruct (decide (1 <= i)); [left; lia|right; lia].
Qed.

End CounterFits.

(** ** A worker on its own *)

Section WorkerAlone.

Import Counter.

Variables (r : regime) (n : Z).
Hypothesis n_range : 0 <= n <= INT_MAX.

Lemma run_worker_add a b p m :
  run_worker r n (a + b) p m =
    let '(p1, m1, c1) := run_worker r n a p m in
    let '(p2, m2, c2) := run_worker r n b p1 m1 in
    (p2, m2, c1 + c2).
Proof.
  revert p m. induction a as [|a IH]; intros p m; simpl.
  - by destruct (run_worker r n b p m) as [[p2 m2] c2].
  - destruct (incrementCounter r n p m) as [[p' m']|] eqn:Hp.
    + rewrite IH. destruct (run_worker r n a p' m') as [[p1 m1] c1].
      destruct (run_worker r n b p1 m1) as [[p2 m2] c2]. f_equal. lia.
    + destruct b; simpl; [done|]. by rewrite Hp.
Qed.

(** One pass through the loop body, from the loop test to the next. *)
Lemma one_iteration i m :
  0 <= i < n -> mtx m = false ->
  run_worker r n (Z.to_nat (per_iter r)) (PTest i) m =
    (PTest (i + 1), Shared (wrap32 (counter m + 1)) false, 1).
Proof.
  intros Hi Hm. destruct m as [c b]. simpl in Hm. subst b.
  assert ((i <? n) = true) as Hlt by (apply Z.ltb_lt; lia).
  assert (wrap32 (i + 1) = i + 1) as Hw
    by (apply wrap32_id; unfold in_int, INT_MIN in *; lia).
  destruct r; simpl; rewrite Hlt; simpl; rewrite Hw; reflexivity.
Qed.

Lemma iterations (k : nat) i m :
  0 <= i -> i + Z.of_nat k <= n -> mtx m = false -> in_int (counter m) ->
  run_worker r n (k * Z.to_nat (per_iter r)) (PTest i) m =
    (PTest (i + Z.of_nat k), Shared (wrap32 (counter m + Z.of_nat k)) false,
     Z.of_nat k).
Proof.
  revert i m. induction k as [|k IH]; intros i m Hi Hk Hm Hc.
  - simpl. destruct m as [c b]; simpl in *; subst.
    rewrite Z.add_0_r, Z.add_0_r, wrap32_id by done. reflexivity.
  - replace (S k * Z.to_nat (per_iter r))%nat
      with (Z.to_nat (per_iter r) + k * Z.to_nat (per_iter r))%nat by lia.
    rewrite run_worker_add, one_iteration by (done || lia).
    rewrite IH; simpl; try done; try lia; [|apply wrap32_in_int].
    rewrite wrap32_add_l.
    replace (i + 1 + Z.of_nat k) with (i + Z.of_nat (S k)) by lia.
    replace (counter m + 1 + Z.of_nat k) with (counter m + Z.of_nat (S k)) by lia.
    replace (1 + Z.of_nat k) with (Z.of_nat (S k)) by lia. reflexivity.
Qed.

(** The whole routine: [n] passes, then the loop test fails and the thread
    returns.  It has written [counter] exactly [n] times. *)
Lemma worker_alone c :
  in_int c ->
  run_worker r n (Z.to_nat (per_iter r * n + 1)) (PTest 0) (Shared c false) =
    (PDone, Shared (wrap32 (c + n)) false, n).
Proof.
  intros Hc.
  assert (0 < per_iter r) by (destruct r; simpl; lia).
  replace (Z.to_nat (per_iter r * n + 1))
    with (Z.to_nat n * Z.to_nat (per_iter r) + 1)%nat by nia.
  rewrite run_worker_add, iterations; simpl; try done; try lia.
  rewrite Z2Nat.id, Z.add_0_l by lia.
  rewrite Z.ltb_irrefl. f_equal. lia.
Qed.

(** Fuel beyond the last move changes nothing. *)
Lemma run_worker_done fuel m : run_worker r n fuel PDone m = (PDone, m, 0).
Proof. by destruct fuel. Qed.

Lemma worker_alone_any_fuel c fuel :
  in_int c -> (Z.to_nat (per_iter r * n + 1) <= fuel)%nat ->
  run_worker r n fuel (PTest 0) (Shared c false) =
    (PDone, Shared (wrap32 (c + n)) false, n).
Proof.
  intros Hc Hfuel.
  replace fuel with
    (Z.to_nat (per_iter r * n + 1) + (fuel - Z.to_nat (per_iter r * n + 1)))%nat by lia.
  rewrite run_worker_add, worker_alone, run_worker_done by done.
  f_equal. lia.
Qed.

(** The moves of a worker on its own are moves of the process in which the
    scheduler keeps picking that worker. *)
Lemma lift_worker t fuel k p m ws mp out p' m' c :
  ws !! k = Some p -> run_worker r n fuel p m = (p', m', c) ->
  rtc (steps r t n) (State m ws mp out) (State m' (<[k := p']> ws) mp out).
Proof.
  revert p m ws c. induction fuel as [|fuel IH]; intros p m ws c Hk Hrun; simpl in Hrun.
  - simplify_eq. rewrite list_insert_id by done. apply rtc_refl.
  - destruct (incrementCounter r n p m) as [[p1 m1]|] eqn:Hp.
    + destruct (run_worker r n fuel p1 m1) as [[q m2] c2] eqn:Hrest. simplify_eq.
      assert (k < length ws)%nat by (eapply lookup_lt_Some; eauto).
      eapply rtc_l.
      * eapply worker_moves; eauto.
      * replace (<[k:=p']> ws) with (<[k:=p']> (<[k:=p1]> ws))
          by apply list_insert_insert_eq.
        eapply IH; [by apply list_lookup_insert_eq|exact Hrest].
    + simplify_eq. rewrite list_insert_id by done. apply rtc_refl.
Qed.

End WorkerAlone.

(** ** Text *)

Section TextFacts.

#[local] Arguments Ascii.eqb : simpl never.
#[local] Arguments ascii_of_nat : simpl never.

Lemma append_nil_r (a : string) : (a ++ EmptyString)%string = a.
Proof. induction a as [|c a IH]; simpl; [done|by rewrite IH]. Qed.

Lemma flat_snoc l x : flat (l ++ [x]) = (flat l ++ x)%string.
Proof.
  induction l as [|y l IH]; simpl.
  - apply append_nil_r.
  - by rewrite IH, append_assoc.
Qed.







End TextFacts.

(** ** Runs of the thread-creation demo *)

Section SimpleRuns.

Import SimpleMultiThreading.

Lemma interleave_snoc_l {A} (x : A) l1 l2 l :
  interleave l1 l2 l -> interleave (l1 ++ [x]) l2 (l ++ [x]).
Proof.
  induction 1; simpl.
  - repeat constructor.
  - by constructor.
  - by constructor.
Qed.

Lemma interleave_snoc_r {A} (x : A) l1 l2 l :
  interleave l1 l2 l -> interleave l1 (l2 ++ [x]) (l ++ [x]).
Proof.
  induction 1; simpl.
  - repeat constructor.
  - by constructor.
  - by constructor.
Qed.

Lemma interleave_nil_r {A} (l1 l : list A) : interleave l1 [] l -> l = l1.
Proof.
  remember [] as l2 eqn:E. induction 1; simplify_eq; [done|].
  f_equal. by apply IHinterleave.
Qed.

(** [merges] lists every merge. *)
Lemma interleave_merges {A} (l1 l2 l : list A) :
  interleave l1 l2 l -> In l (merges l1 l2).
Proof.
  induction 1 as [|x l1 l2 l H IH|x l1 l2 l H IH].
  - by left.
  - destruct l2 as [|y l2].
    + apply interleave_nil_r in H as ->. by left.
    + change (In (x :: l) (map (cons x) (merges l1 (y :: l2)) ++
                            map (cons y) (merges (x :: l1) l2))).
      apply in_or_app. left. by apply in_map.
  - destruct l1 as [|y l1].
    + destruct IH as [<-|[]]. by left.
    + change (In (x :: l) (map (cons y) (merges l1 (x :: l2)) ++
                            map (cons x) (merges (y :: l1) l2))).
      apply in_or_app. right. by apply in_map.
Qed.

(** What a thread has written grows by the piece it inserts. *)
Lemma move_written th out th' out' :
  move th out = Some (th', out') ->
  exists x, written th' = written th ++ [x] /\ out' = (out ++ x)%string /\
            (forall id p, th = Some (id, p) -> exists p', th' = Some (id, p')) /\
            qremaining th = S (qremaining th').
Proof.
  destruct th as [[id p]|]; [|discriminate]. simpl.
  destruct p; simpl; intros H; simplify_eq; eexists; split_and!; try done;
    intros ? ? [= <- <-]; eauto.
Qed.

Lemma qreachable_ind (P : qstate -> Prop) :
  P qinit ->
  (forall s a s', qreachable s -> P s -> qstep a s = Some s' -> P s') ->
  forall s, qreachable s -> P s.
Proof.
  intros Hinit Hstep. unfold qreachable.
  apply rtc_ind_r; [exact Hinit|].
  intros s1 s2 Hs1 [a Ha] IH. eapply Hstep; eauto.
Qed.

Lemma qrun_steps sched s s' : qrun sched s = Some s' -> rtc qsteps s s'.
Proof.
  revert s. induction sched as [|a sched IH]; intros s H; simpl in H.
  - injection H as <-. apply rtc_refl.
  - destruct (qstep a s) as [s1|] eqn:Ha; [|discriminate].
    eapply rtc_l; [exists a; exact Ha | apply IH, H].
Qed.

Ltac unpack :=
  repeat match goal with
         | H : _ /\ _ |- _ => destruct H
         | H : exists _, _ |- _ => destruct H
         end;
  simplify_eq; repeat split; eauto.

Lemma qshape_invariant s : qreachable s -> qshape s.
Proof.
  revert s. apply qreachable_ind; [by split|].
  intros [th1 th2 mp out] a s' _ Hs Ha. unfold qshape in *; simpl in *.
  destruct a; simpl in Ha.
  - unfold main in Ha; simpl in Ha.
    destruct mp; simplify_eq; simpl.
    + destruct Hs as [-> ->]. eauto.
    + destruct Hs as [[p ->] ->]. eauto.
    + destruct Hs as [[p ->] [q ->]]. simpl in Ha. destruct p; simplify_eq. simpl. eauto.
    + destruct Hs as [-> [q ->]]. simpl in Ha. destruct q; simplify_eq. done.
    + destruct Hs as [-> ->]. done.
  - destruct th1 as [[id p]|]; [|discriminate].
    destruct p; simpl in Ha; simplify_eq; destruct mp; simpl in *; unpack.
  - destruct th2 as [[id p]|]; [|discriminate].
    destruct p; simpl in Ha; simplify_eq; destruct mp; simpl in *; unpack.
Qed.

Lemma qout_invariant s : qreachable s -> qout_inv s.
Proof.
  revert s. apply qreachable_ind.
  - exists []. split; [constructor|done].
  - intros [th1 th2 mp out] a s' Hs (l & Hl & Hout) Ha.
    unfold qout_inv in *; simpl in *. destruct a; simpl in Ha.
    + pose proof (qshape_invariant _ Hs) as Hshape. unfold qshape in Hshape.
      unfold main in Ha; simpl in *.
      destruct mp; simpl in *; unpack; simplify_eq; simpl;
        try (exists l; split; done).
      * destruct (joinable _); simplify_eq. simpl. eauto.
      * destruct (joinable _); simplify_eq. simpl. eauto.
    + destruct (move th1 out) as [[th out']|] eqn:Hm; [|discriminate].
      injection Ha as <-. simpl.
      apply move_written in Hm as (x & -> & -> & _).
      exists (l ++ [x]). split; [by apply interleave_snoc_l|].
      by rewrite flat_snoc, Hout.
    + destruct (move th2 out) as [[th out']|] eqn:Hm; [|discriminate].
      injection Ha as <-. simpl.
      apply move_written in Hm as (x & -> & -> & _).
      exists (l ++ [x]). split; [by apply interleave_snoc_r|].
      by rewrite flat_snoc, Hout.
Qed.

(** Each move uses up one unit of [qmeasure]; a run has at most eleven
    moves. *)
Lemma qmeasure_step s s' :
  qreachable s -> qsteps s s' -> qmeasure s = S (qmeasure s').
Proof.
  intros Hs [a Ha]. pose proof (qshape_invariant s Hs) as Hshape.
  destruct s as [th1 th2 mp out]. unfold qshape, qmeasure in *. simpl in *.
  destruct a; simpl in Ha.
  - unfold main in Ha; simpl in Ha.
    destruct mp; simpl in *; unpack; simplify_eq; simpl; try done; try lia;
      repeat match goal with x : ppc |- _ => destruct x end;
      simpl in *; simplify_eq; simpl; lia.
  - destruct (move th1 out) as [[th out']|] eqn:Hm; [|discriminate].
    injection Ha as <-. simpl.
    apply move_written in Hm as (x & _ & _ & _ & ->). lia.
  - destruct (move th2 out) as [[th out']|] eqn:Hm; [|discriminate].
    injection Ha as <-. simpl.
    apply move_written in Hm as (x & _ & _ & _ & ->). lia.
Qed.

Lemma qrun_length k s :
  nsteps qsteps k qinit s -> (k + qmeasure s = 11)%nat.
Proof.
  revert s. induction k as [|k IH]; intros s Hk.
  - inversion Hk; subst. reflexivity.
  - apply nsteps_inv_r in Hk as (s1 & Hk & Hstep).
    specialize (IH _ Hk).
    assert (qreachable s1) by (eapply rtc_nsteps_2; eauto).
    rewrite (qmeasure_step s1 s) in IH by done. lia.
Qed.

(** No deadlock before [main] has exited. *)
Lemma qprogress s :
  qreachable s -> (forall code, qmain s <> QExited code) -> exists s', qsteps s s'.
Proof.
  intros Hs Hne. pose proof (qshape_invariant s Hs) as Hshape.
  destruct s as [th1 th2 mp out]. unfold qshape in *. simpl in *.
  destruct mp; simpl in *; unpack; simplify_eq;
    repeat match goal with x : ppc |- _ => destruct x end;
    first [ eexists; exists QMain; reflexivity
          | eexists; exists QT1; reflexivity
          | eexists; exists QT2; reflexivity
          | by destruct (Hne 0) ].
Qed.

Lemma qcompletes s :
  qreachable s -> exists s', rtc qsteps s s' /\ exists code, qmain s' = QExited code.
Proof.
  intros Hs. remember (qmeasure s) as k eqn:Hk.
  revert s Hs Hk. induction k as [k IH] using lt_wf_ind. intros s Hs Hk.
  destruct (qmain s) eqn:Hm;
    try (destruct (qprogress s Hs ltac:(intros c; congruence)) as [s1 Hstep];
         pose proof (qmeasure_step s s1 Hs Hstep);
         destruct (IH (qmeasure s1) ltac:(lia) s1 ltac:(eapply rtc_r; eauto) eq_refl)
           as (s' & Hrun & Hex);
         exists s'; split; [eapply rtc_l; eauto|done]).
  exists s. split; [apply rtc_refl|eauto].
Qed.

(** The merges of the two threads' pieces are the possible outputs. *)
Lemma qfinal_output s :
  qfinal s ->
  t1 s = Some (1, QDone) /\ t2 s = Some (2, QDone) /\ qmain s = QExited 0 /\
  exists l, interleave (pieces 1) (pieces 2) l /\ qcout s = flat l.
Proof.
  intros [Hs [code Hc]].
  pose proof (qshape_invariant s Hs) as Hshape.
  destruct (qout_invariant s Hs) as (l & Hl & Hout).
  unfold qshape in Hshape. rewrite Hc in Hshape.
  destruct Hshape as (H1 & H2 & ->). rewrite H1, H2 in Hl.
  split_and!; try done. exists l. done.
Qed.

End SimpleRuns.

(** ** Termination, and a single worker thread *)

Section CounterMore.

Import Counter.

Variables (r : regime) (t : nat) (n : Z).
Hypothesis n_range : 0 <= n <= INT_MAX.

Lemma counter_terminates : terminates r t n.
Proof.
  split.
  - intros k s Hk. rewrite (run_length r t n n_range k s Hk).
    assert (reachable r t n s) as Hs by (eapply rtc_nsteps_2; eauto).
    pose proof (measure_nonneg r t n n_range s (shape_invariant r t n n_range s Hs)).
    lia.
  - apply progress, n_range.
Qed.

(** With a single worker thread nothing can come between a read of
    [counter] and the write that follows it. *)
Lemma solo_invariant s :
  (t <= 1)%nat -> reachable r t n s ->
  exact n s /\ forall k i v, workers s !! k = Some (PStore i v) -> v = counter (mem s).
Proof.
  intros Ht Hs. pose proof Hs as Hs0. revert s Hs Hs0.
  apply (reachable_ind r t n (fun s => reachable r t n s -> exact n s /\
    forall k i v, workers s !! k = Some (PStore i v) -> v = counter (mem s))).
  - intros _. unfold exact, init; simpl. rewrite total_nil. split; [done|].
    intros k i v Hk. by rewrite lookup_nil in Hk.
  - intros s s' Hs IH Hstep _. specialize (IH Hs).
    unfold main in Hstep. destruct s as [m ws mp out]; simpl in *.
    unfold exact in *; simpl in *.
    destruct mp; simplify_eq; simpl; try done.
    + rewrite total_app, total_cons, total_nil. simpl.
      destruct IH as [H1 H2]. split; [rewrite H1; f_equal; lia|].
      intros j i v Hj. apply lookup_app_Some in Hj as [Hj|[_ Hj]]; [by eapply H2|].
      by destruct (j - length ws)%nat.
    + destruct (ws !! k) as [[]|]; simplify_eq. done.
  - intros m ws mp out k p p' m' Hs IH Hk Hp _. specialize (IH Hs).
    pose proof (shape_invariant r t n n_range _ Hs) as Hshape.
    pose proof (shape_length r t n _ Hshape) as Hlen. simpl in Hlen.
    unfold exact in *; simpl in *. destruct IH as [H1 H2].
    assert (Hwfp : wf_pc r n p) by (destruct Hshape as [Hwf _]; eapply Forall_lookup_1; eauto).
    pose proof (committed_move r n n_range _ _ _ _ Hwfp Hp) as Hc. unfold writes in Hc.
    pose proof (counter_move r n _ _ _ _ Hp) as Hm.
    assert (Hk' : (k < length ws)%nat) by (eapply lookup_lt_Some; eauto).
    rewrite (total_insert _ _ _ _ _ Hk), Hc, Hm. split.
    + destruct p; try (rewrite H1; f_equal; lia).
      * rewrite (H2 _ _ _ Hk), H1, wrap32_add_l. f_equal. lia.
      * rewrite H1, wrap32_add_l. f_equal. lia.
    + intros j i v Hj.
      assert (j = k) as -> by (apply lookup_lt_Some in Hj; rewrite length_insert in Hj; lia).
      rewrite list_lookup_insert_eq in Hj by done. simplify_eq.
      apply move_to_store in Hp as (-> & -> & ->). done.
Qed.

Lemma solo_final s :
  (t <= 1)%nat -> final r t n s -> counter (mem s) = wrap32 (Z.of_nat t * n).
Proof.
  intros Ht Hf. rewrite <- (final_total r t n n_range s Hf).
  apply solo_invariant; [done|apply Hf].
Qed.

End CounterMore.

(** ** The globals across calls of [main] *)

Section Rerun.

Import Counter.

(** [raceCondition.cpp] and [atomic.cpp] never take the lock. *)
Lemma unlocked_invariant r t n s :
  0 <= n <= INT_MAX -> r <> MUTEX -> reachable r t n s -> mtx (mem s) = false.
Proof.
  intros Hn Hr Hs. pose proof Hs as Hs0. revert s Hs Hs0.
  apply (reachable_ind r t n (fun s => reachable r t n s -> mtx (mem s) = false)).
  - done.
  - intros s s' Hs IH Hstep _. specialize (IH Hs).
    unfold Counter.main in Hstep. destruct s as [m ws mp out]; simpl in *.
    destruct mp; simplify_eq; simpl; try done.
    destruct (ws !! k) as [[]|]; simplify_eq. done.
  - intros m ws mp out k p p' m' Hs IH Hk Hp _. specialize (IH Hs). simpl in *.
    destruct (shape_invariant r t n Hn _ Hs) as [Hwf _]. simpl in Hwf.
    eapply Forall_lookup_1 in Hwf; [|exact Hk].
    destruct p; simpl in Hp, Hwf; simplify_eq; simpl; try done; tauto.
Qed.

Lemma all_done_no_holder ws :
  Forall (fun p => p = PDone) ws -> holders ws = 0.
Proof.
  intros H. unfold holders.
  rewrite (total_const _ 0 ws); [lia|].
  eapply Forall_impl; [exact H|]. by intros p ->.
Qed.










Section SecondCall.

Variables (r : regime) (t : nat) (n : Z) (s1 : state).
Hypothesis n_range : 0 <= n <= INT_MAX.
Hypothesis first : final r t n s1.









End SecondCall.

End Rerun.

(** * The claims *)

Section Claims.

Import Counter SimpleMultiThreading.

(** The bound on [n] that all the runs below need follows from the bound
    on [t * n]. *)
Lemma fits_range (t : nat) n :
  (1 <= t)%nat -> 0 <= n -> Z.of_nat t * n <= INT_MAX -> 0 <= n <= INT_MAX.
Proof. intros. split; [done|nia]. Qed.

(** With the constants of the source, [mutex.cpp] and [atomic.cpp] end with
    2000000. *)
Lemma reference_value r s :
  r <> NONE -> final r threads iterations_per_thread s ->
  counter (mem s) = 2000000 /\
  cout s = (label ++ "2000000" ++ endl)%string.
Proof.
  intros Hr Hf.
  assert (0 <= iterations_per_thread <= INT_MAX) as Hn by (vm_compute; split; discriminate).
  pose proof (final_exact r _ _ Hn s Hr Hf) as Hc.
  change (wrap32 (Z.of_nat threads * iterations_per_thread)) with 2000000 in Hc.
  split; [done|].
  destruct (final_output r _ _ Hn s Hf) as [Hout _]. by rewrite Hout, Hc.
Qed.

(** With the constant of the source, a worker on its own adds 1000000. *)
Lemma reference_worker r c fuel :
  in_int c -> c + 1000000 <= INT_MAX ->
  (Z.to_nat (per_iter r * iterations_per_thread + 1) <= fuel)%nat ->
  run_worker r iterations_per_thread fuel (PTest 0) (Shared c false) =
    (PDone, Shared (c + 1000000) false, 1000000).
Proof.
  intros Hc Hfit Hfuel.
  assert (0 <= iterations_per_thread <= INT_MAX) as Hn by (vm_compute; split; discriminate).
  rewrite (worker_alone_any_fuel r _ Hn c fuel Hc Hfuel).
  change iterations_per_thread with 1000000.
  rewrite wrap32_id; [reflexivity|]. unfold in_int, INT_MIN in *. lia.
Qed.

(** The thread-creation demo can print its two lines in either order. *)
Lemma both_orders :
  (exists s, qrun one_then_two qinit = Some s /\ qfinal s /\
             lines (qcout s) = [text 1; text 2]) /\
  (exists s, qrun two_then_one qinit = Some s /\ qfinal s /\
             lines (qcout s) = [text 2; text 1]).
Proof.
  split.
  - eexists. split; [vm_compute; reflexivity|]. split; [|vm_compute; reflexivity].
    split; [|by eexists]. apply (qrun_steps one_then_two). vm_compute. reflexivity.
  - eexists. split; [vm_compute; reflexivity|]. split; [|vm_compute; reflexivity].
    split; [|by eexists]. apply (qrun_steps two_then_one). vm_compute. reflexivity.
Qed.

(** [atomic.cpp] with two threads and [n = 2^30] performs [2^31]
    increments and ends with [INT_MIN]. *)
Lemma atomic_overflow :
  exists s, final ATOMIC 2 1073741824 s /\ counter (mem s) = -2147483648.
Proof.
  assert (0 <= 1073741824 <= INT_MAX) as Hn by (vm_compute; split; discriminate).
  destruct (some_run_completes ATOMIC 2 _ Hn) as [s Hf].
  exists s. split; [done|].
  rewrite (final_exact ATOMIC 2 _ Hn s ltac:(discriminate) Hf).
  vm_compute. reflexivity.
Qed.

(** [raceCondition.cpp]: what is left at the end when updates are lost. *)
Lemma racy_final_lower t n s :
  (1 <= t)%nat -> 0 <= n -> Z.of_nat t * n <= INT_MAX ->
  final NONE t n s -> Z.min n 2 <= counter (mem s).
Proof.
  intros Ht Hn Hfit Hf. pose proof (fits_range t n Ht Hn Hfit) as Hrange.
  pose proof Hf as [Hs _].
  destruct (nonneg_invariant NONE t n Hrange Hfit s Hs) as [H0 _].
  destruct (racy_invariant NONE t n Hrange Hfit s eq_refl Ht Hs) as (H1 & _ & H2).
  rewrite (final_total NONE t n Hrange s Hf) in H1, H2.
  destruct (decide (2 <= n)) as [Hn2|Hn2].
  - destruct (H2 Hn2); lia.
  - destruct (decide (n = 0)) as [->|]; [lia|].
    assert (1 <= counter (mem s)) by (apply H1; nia). lia.
Qed.

(** C1, as stated, fails where [t * n] is not an [int]: [atomic.cpp] with
    two threads and [n = 2^30] performs [2^31] increments and ends with
    [INT_MIN]. *)
Lemma C1_counterexample :
  exists s, final ATOMIC 2 1073741824 s /\
            counter (mem s) = -2147483648 /\
            counter (mem s) <> Z.of_nat 2 * 1073741824.
Proof.
  destruct atomic_overflow as (s & Hf & Hc).
  exists s. split; [done|]. rewrite Hc. split; [reflexivity|]. vm_compute. discriminate.
Qed.

(** C1 (amended): for [t >= 1] threads and [n >= 0] iterations with
    [t * n <= INT_MAX], every run of [mutex.cpp] and of [atomic.cpp] ends,
    and it ends with [counter = t * n], which is also the number printed. *)
Theorem C1_sync_final_value r t n :
  r <> NONE -> (1 <= t)%nat -> 0 <= n -> Z.of_nat t * n <= INT_MAX ->
  terminates r t n /\
  (exists s, final r t n s) /\
  (forall s, final r t n s ->
     counter (mem s) = Z.of_nat t * n /\
     cout s = (label ++ decimal (Z.of_nat t * n) ++ endl)%string).
Proof.
  intros Hr Ht Hn Hfit. pose proof (fits_range t n Ht Hn Hfit) as Hrange.
  split_and!.
  - by apply counter_terminates.
  - by apply some_run_completes.
  - intros s Hf.
    assert (counter (mem s) = Z.of_nat t * n) as Hc.
    { rewrite (final_exact r t n Hrange s Hr Hf).
      apply wrap32_id. unfold in_int, INT_MIN in *. lia. }
    split; [done|].
    destruct (final_output r t n Hrange s Hf) as [Hout _]. by rewrite Hout, Hc.
Qed.

Lemma C1_sync_final_value_witness :
  MUTEX <> NONE /\ (1 <= 2)%nat /\ 0 <= 1 /\ Z.of_nat 2 * 1 <= INT_MAX /\
  exists s, run MUTEX 2 1 (sequential MUTEX 2 1) (init 2) = Some s /\
            counter (mem s) = 2.
Proof.
  assert (MUTEX <> NONE) as H1 by discriminate.
  assert (1 <= 2)%nat as H2 by lia.
  assert (0 <= 1) as H3 by lia.
  assert (Z.of_nat 2 * 1 <= INT_MAX) as H4 by (vm_compute; discriminate).
  split_and!; try done.
  eexists. split; [vm_compute; reflexivity|].
  apply (C1_sync_final_value MUTEX 2 1 H1 H2 H3 H4).
  split; [|by eexists].
  eapply run_reachable with (sched := sequential MUTEX 2 1). vm_compute. reflexivity.
Defined.

(** [raceCondition.cpp] with two threads and [n = 2^30], one thread after
    the other: the second thread takes [counter] past [INT_MAX], where the
    model wraps around (and the language promises nothing). *)
Lemma sequential_overflow :
  exists s, final NONE 2 1073741824 s /\ counter (mem s) = -2147483648.
Proof.
  set (n := 1073741824).
  assert (0 <= n <= INT_MAX) as Hn by (vm_compute; split; discriminate).
  set (fuel := Z.to_nat (per_iter NONE * n + 1)).
  pose proof (worker_alone NONE n Hn 0 ltac:(vm_compute; split; discriminate)) as W0.
  change (wrap32 (0 + n)) with n in W0.
  pose proof (worker_alone NONE n Hn n ltac:(vm_compute; split; discriminate)) as W1.
  change (wrap32 (n + n)) with (-2147483648) in W1.
  exists (State (Shared (-2147483648) false) [PDone; PDone] (MExited 0)
            (label ++ "-2147483648" ++ endl)%string).
  split; [|reflexivity]. split; [|by eexists].
  unfold reachable.
  etrans; [apply (run_steps NONE 2 n [Main; Main]); reflexivity|].
  etrans; [eapply (lift_worker NONE n 2 fuel 0); [reflexivity|exact W0]|].
  etrans; [eapply (lift_worker NONE n 2 fuel 1); [reflexivity|exact W1]|].
  apply (run_steps NONE 2 n (turns Main 6)). reflexivity.
Qed.

(** C2, as stated, fails: in [raceCondition.cpp] with two threads and
    [n = 3] the schedule [lost_update] ends with 2, below [n].  And past the
    range of [int] nothing is left of the lower bound. *)
Lemma C2_counterexample :
  (exists s, run NONE 2 3 lost_update (init 2) = Some s /\ final NONE 2 3 s /\
             counter (mem s) = 2 /\
             ~ (3 <= counter (mem s) <= Z.of_nat 2 * 3)) /\
  (exists s, final NONE 2 1073741824 s /\
             ~ (1073741824 <= counter (mem s) <= Z.of_nat 2 * 1073741824)).
Proof.
  split.
  - eexists. split; [vm_compute; reflexivity|]. split_and!.
    + split; [|by eexists].
      apply run_reachable with (sched := lost_update). vm_compute. reflexivity.
    + reflexivity.
    + simpl. lia.
  - destruct sequential_overflow as (s & Hf & Hc).
    exists s. split; [done|]. rewrite Hc. lia.
Qed.

(** C2 (amended): for [t >= 1] threads and [n >= 0] iterations with
    [t * n <= INT_MAX], every run of [raceCondition.cpp] ends, with a final
    value between [min n 2] and [t * n]; with a single thread it is [n]. *)
Theorem C2_racy_bounds t n :
  (1 <= t)%nat -> 0 <= n -> Z.of_nat t * n <= INT_MAX ->
  terminates NONE t n /\
  (exists s, final NONE t n s) /\
  (forall s, final NONE t n s ->
     Z.min n 2 <= counter (mem s) <= Z.of_nat t * n /\
     (t = 1%nat -> counter (mem s) = n)).
Proof.
  intros Ht Hn Hfit. pose proof (fits_range t n Ht Hn Hfit) as Hrange.
  split_and!.
  - by apply counter_terminates.
  - by apply some_run_completes.
  - intros s Hf. pose proof Hf as [Hs _].
    destruct (final_upper NONE t n Hrange s Hs) as [_ Hup].
    split_and!; [|done|].
    + by apply (racy_final_lower t n s).
    + intros ->. rewrite (solo_final NONE 1 n Hrange s ltac:(lia) Hf).
      rewrite wrap32_id; unfold in_int, INT_MIN in *; lia.
Qed.

Lemma C2_racy_bounds_witness :
  (1 <= 2)%nat /\ 0 <= 3 /\ Z.of_nat 2 * 3 <= INT_MAX /\
  exists s, run NONE 2 3 lost_update (init 2) = Some s /\
            Z.min 3 2 <= counter (mem s) <= Z.of_nat 2 * 3.
Proof.
  assert (1 <= 2)%nat as H1 by lia.
  assert (0 <= 3) as H2 by lia.
  assert (Z.of_nat 2 * 3 <= INT_MAX) as H3 by (vm_compute; discriminate).
  split_and!; try done.
  eexists. split; [vm_compute; reflexivity|].
  apply (C2_racy_bounds 2 3 H1 H2 H3).
  split; [|by eexists].
  eapply run_reachable with (sched := lost_update). vm_compute. reflexivity.
Defined.

(** C3: in every state that a run of [mutex.cpp] reaches, at most one
    thread is inside the increment body (between its acquisition of [mtx]
    and its release); [mtx] is held exactly while some thread is inside; the
    move that enters the body takes the free lock and every move that leaves
    the body releases it, once per pass of the loop; and a pass started with
    the lock free ends, after its increment, with the lock free. *)
Theorem C3_mutual_exclusion t n s :
  0 <= n <= INT_MAX -> reachable MUTEX t n s ->
  holders (workers s) <= 1 /\
  (forall j k p q, workers s !! j = Some p -> workers s !! k = Some q ->
     in_body p = true -> in_body q = true -> j = k) /\
  (mtx (mem s) = true <->
     exists k p, workers s !! k = Some p /\ in_body p = true) /\
  (forall p m p' m', incrementCounter MUTEX n p m = Some (p', m') ->
     (in_body p = false -> in_body p' = true -> mtx m = false /\ mtx m' = true) /\
     (in_body p = true -> in_body p' = false -> mtx m' = false)) /\
  (forall i m, 0 <= i < n -> mtx m = false ->
     run_worker MUTEX n 2 (PTest i) m = (PLoad i, Shared (counter m) true, 0) /\
     run_worker MUTEX n 6 (PTest i) m =
       (PTest (i + 1), Shared (wrap32 (counter m + 1)) false, 1)).
Proof.
  intros Hn Hs. destruct (lock_invariant MUTEX t n Hn s eq_refl Hs) as [Hh _].
  split_and!.
  - destruct (mtx (mem s)); lia.
  - intros j k p q Hj Hk Hp Hq. destruct (decide (j = k)) as [|Hjk]; [done|].
    pose proof (holders_two _ j k p q Hjk Hj Hk Hp Hq). destruct (mtx (mem s)); lia.
  - split.
    + intros Hm. rewrite Hm in Hh. apply holders_witness. lia.
    + intros (k & p & Hk & Hp). pose proof (holders_one _ k p Hk Hp).
      destruct (mtx (mem s)); [done|lia].
  - intros p m p' m' Hp. destruct p; simpl in Hp; simplify_eq; simpl; try done.
    + destruct (i <? n); simpl; done.
    + destruct (mtx m); simplify_eq. done.
  - intros i m Hi Hm. split.
    + simpl. destruct (Z.ltb_spec i n); [|lia]. simpl. by rewrite Hm.
    + apply (one_iteration MUTEX n Hn i m Hi Hm).
Qed.

Lemma C3_mutual_exclusion_witness :
  0 <= 1 <= INT_MAX /\
  exists s, run MUTEX 2 1 [Main; Main; Worker 0%nat; Worker 0%nat; Worker 1%nat]
              (init 2) = Some s /\
            mtx (mem s) = true /\ holders (workers s) <= 1.
Proof.
  assert (0 <= 1 <= INT_MAX) as H1 by (vm_compute; split; discriminate).
  split; [done|].
  eexists. split; [vm_compute; reflexivity|]. split; [reflexivity|].
  apply (C3_mutual_exclusion 2 1 _ H1).
  eapply run_reachable
    with (sched := [Main; Main; Worker 0%nat; Worker 0%nat; Worker 1%nat]).
  vm_compute. reflexivity.
Defined.

(** C4, as stated, fails.  In [raceCondition.cpp] a thread that has read
    [counter] before the others wrote it puts an older value back: after
    [stale_read] the counter is 2 and the next move of thread 0 makes it 1.
    And in [atomic.cpp] with [2^31] increments some move must take the
    counter down, since it starts at 0 and ends at [INT_MIN]. *)
Lemma C4_counterexample :
  (exists s s', run NONE 2 2 stale_read (init 2) = Some s /\
                reachable NONE 2 2 s /\ steps NONE 2 2 s s' /\
                counter (mem s) = 2 /\ counter (mem s') = 1) /\
  ~ (forall s s', reachable ATOMIC 2 1073741824 s ->
                  steps ATOMIC 2 1073741824 s s' ->
                  counter (mem s) <= counter (mem s')).
Proof.
  split.
  - eexists. eexists. split; [vm_compute; reflexivity|]. split_and!.
    + apply run_reachable with (sched := stale_read). vm_compute. reflexivity.
    + exists (Worker 0). vm_compute. reflexivity.
    + reflexivity.
    + reflexivity.
  - intros Hmono.
    destruct atomic_overflow as (s & [Hs _] & Hc).
    assert (0 <= counter (mem s)); [|lia]. clear Hc.
    revert s Hs. apply rtc_ind_r; [simpl; lia|].
    intros s1 s2 Hs1 Hstep IH. specialize (Hmono s1 s2 Hs1 Hstep). lia.
Qed.

(** C4 (amended): in every state that a run reaches, in any of the three
    files, [counter] is an [int] and at most [t * n].  In [mutex.cpp] and
    [atomic.cpp], when [t * n <= INT_MAX], no move lowers [counter]. *)
Theorem C4_counter_bounds r t n :
  0 <= n <= INT_MAX ->
  (forall s, reachable r t n s ->
     in_int (counter (mem s)) /\ counter (mem s) <= Z.of_nat t * n) /\
  (r <> NONE -> Z.of_nat t * n <= INT_MAX ->
   forall s s', reachable r t n s -> steps r t n s s' ->
     0 <= counter (mem s) <= counter (mem s')).
Proof.
  intros Hn. split.
  - intros s Hs. apply (final_upper r t n Hn s Hs).
  - intros Hr Hfit s s' Hs Hstep. split.
    + by destruct (nonneg_invariant r t n Hn Hfit s Hs).
    + by apply (monotone r t n Hn Hfit).
Qed.

Lemma C4_counter_bounds_witness :
  0 <= 1 <= INT_MAX /\ ATOMIC <> NONE /\ Z.of_nat 2 * 1 <= INT_MAX /\
  exists s s',
    run ATOMIC 2 1 [Main; Main; Worker 0%nat] (init 2) = Some s /\
    step ATOMIC 2 1 (Worker 0) s = Some s' /\
    counter (mem s') <= Z.of_nat 2 * 1 /\
    0 <= counter (mem s) <= counter (mem s').
Proof.
  assert (0 <= 1 <= INT_MAX) as H1 by (vm_compute; split; discriminate).
  assert (ATOMIC <> NONE) as H2 by discriminate.
  assert (Z.of_nat 2 * 1 <= INT_MAX) as H3 by (vm_compute; discriminate).
  split; [exact H1|]. split; [exact H2|]. split; [exact H3|].
  set (s := State (Shared 0 false) [PFetchAdd 0; PTest 0] (MJoin 0) EmptyString).
  set (s' := State (Shared 1 false) [PNext 0; PTest 0] (MJoin 0) EmptyString).
  exists s, s'. split; [vm_compute; reflexivity|]. split; [vm_compute; reflexivity|].
  assert (reachable ATOMIC 2 1 s) as Hs.
  { eapply run_reachable with (sched := [Main; Main; Worker 0%nat]).
    vm_compute. reflexivity. }
  assert (steps ATOMIC 2 1 s s') as Hstep
    by (exists (Worker 0); vm_compute; reflexivity).
  destruct (C4_counter_bounds ATOMIC 2 1 H1) as [Hbound Hmono].
  split.
  - apply (Hbound s'). eapply reachable_step; eauto.
  - exact (Hmono H2 H3 s s' Hs Hstep).
Defined.

(** C5, as stated, fails where [c + n] is not an [int]: the routine of
    [atomic.cpp] with [n = 1], started with [counter = INT_MAX], leaves
    [INT_MIN]. *)
Lemma C5_counterexample :
  run_worker ATOMIC 1 (Z.to_nat (per_iter ATOMIC * 1 + 1)) (PTest 0)
    (Shared INT_MAX false) = (PDone, Shared INT_MIN false, 1) /\
  INT_MIN <> INT_MAX + 1.
Proof. split; [vm_compute; reflexivity|vm_compute; discriminate]. Qed.

(** C5 (amended): a worker on its own, started with [counter = c] and the
    lock free, returns after [per_iter r * n + 1] moves, having written
    [counter] exactly [n] times; it leaves [c + n] when [c + n <= INT_MAX]
    (in general the 32-bit reduction of [c + n]). *)
Theorem C5_worker_alone r n c fuel :
  0 <= n <= INT_MAX -> in_int c ->
  (Z.to_nat (per_iter r * n + 1) <= fuel)%nat ->
  run_worker r n fuel (PTest 0) (Shared c false) =
    (PDone, Shared (wrap32 (c + n)) false, n) /\
  (c + n <= INT_MAX ->
   run_worker r n fuel (PTest 0) (Shared c false) =
     (PDone, Shared (c + n) false, n)).
Proof.
  intros Hn Hc Hfuel.
  pose proof (worker_alone_any_fuel r n Hn c fuel Hc Hfuel) as Hrun.
  split; [exact Hrun|].
  intros Hfit. rewrite Hrun, wrap32_id; [reflexivity|].
  unfold in_int, INT_MIN in *. lia.
Qed.

Lemma C5_worker_alone_witness :
  0 <= 2 <= INT_MAX /\ in_int 5 /\ (Z.to_nat (per_iter MUTEX * 2 + 1) <= 13)%nat /\
  run_worker MUTEX 2 13 (PTest 0) (Shared 5 false) = (PDone, Shared 7 false, 2).
Proof.
  assert (0 <= 2 <= INT_MAX) as H1 by (vm_compute; split; discriminate).
  assert (in_int 5) as H2 by (vm_compute; split; discriminate).
  assert (Z.to_nat (per_iter MUTEX * 2 + 1) <= 13)%nat as H3 by (vm_compute; lia).
  split; [exact H1|]. split; [exact H2|]. split; [exact H3|].
  apply (proj2 (C5_worker_alone MUTEX 2 5 13 H1 H2 H3)). vm_compute. discriminate.
Defined.

(** Every text that a merge of the two threads' pieces leaves has two
    finished lines and each identifier once. *)
Lemma outputs_two_lines : forallb two_lines outputs = true.
Proof. vm_compute. reflexivity. Qed.

(** Only the two merges that keep each thread's pieces together give the
    two intended lines. *)
Lemma outputs_expected :
  Forall (fun out => expected_lines out ->
            out = (line 1 ++ line 2)%string \/ out = (line 2 ++ line 1)%string)
         outputs.
Proof.
  unfold outputs.
  repeat (apply Forall_cons; split;
    [intros [H|H]; vm_compute in H;
     first [discriminate H | left; reflexivity | right; reflexivity]|]).
  apply Forall_nil. done.
Qed.

Lemma qfinal_in_outputs s : qfinal s -> In (qcout s) outputs.
Proof.
  intros Hf. destruct (qfinal_output s Hf) as (_ & _ & _ & l & Hl & ->).
  unfold outputs. apply in_map. by apply interleave_merges.
Qed.

(** C6, as stated, fails: [printMessage] writes its line in three
    insertions, and under [alternating] the two threads take turns, which
    leaves both identifiers on the first line and none on the second. *)
Lemma C6_counterexample :
  exists s, qrun alternating qinit = Some s /\ qfinal s /\
            lines (qcout s) = ["Thread Thread 12 is running"; " is running"]%string /\
            ~ expected_lines (qcout s).
Proof.
  eexists. split; [vm_compute; reflexivity|]. split_and!.
  - split; [|by eexists].
    apply (qrun_steps alternating). vm_compute. reflexivity.
  - vm_compute. reflexivity.
  - intros [H|H]; vm_compute in H; discriminate H.
Qed.

(** C6 (amended): [main] does not get past the joins before both threads
    have returned.  Every run ends, after eleven moves, and its output is a
    merge of the pieces ["Thread "], [id], [" is running\n"] of thread 1 and
    of thread 2: it has exactly two lines and holds each of the identifiers
    1 and 2 once; the lines are ["Thread 1 is running"] and
    ["Thread 2 is running"], in either order, exactly when one thread's
    three insertions all come before the other's. *)
Theorem C6_thread_messages s :
  qreachable s ->
  (past_joins s -> t1 s = Some (1, QDone) /\ t2 s = Some (2, QDone)) /\
  (forall k, nsteps qsteps k qinit s -> (k + qmeasure s = 11)%nat) /\
  ((forall code, qmain s <> QExited code) -> exists s', qsteps s s') /\
  ((exists code, qmain s = QExited code) ->
     (exists l, interleave (pieces 1) (pieces 2) l /\ qcout s = flat l) /\
     length (lines (qcout s)) = 2%nat /\
     occurrences (ascii_of_nat 10) (qcout s) = 2%nat /\
     occurrences "1"%char (qcout s) = 1%nat /\
     occurrences "2"%char (qcout s) = 1%nat /\
     (expected_lines (qcout s) <->
        qcout s = (line 1 ++ line 2)%string \/ qcout s = (line 2 ++ line 1)%string)).
Proof.
  intros Hs. split_and!.
  - intros Hp. pose proof (qshape_invariant s Hs) as Hshape. unfold qshape in Hshape.
    destruct Hp as [Hp|[code Hp]]; rewrite Hp in Hshape; tauto.
  - intros k. apply qrun_length.
  - by apply qprogress.
  - intros Hex. assert (qfinal s) as Hf by (split; done).
    pose proof (qfinal_in_outputs s Hf) as Hin.
    destruct (qfinal_output s Hf) as (_ & _ & _ & Hl).
    pose proof outputs_two_lines as Htwo.
    rewrite forallb_forall in Htwo. specialize (Htwo _ Hin).
    unfold two_lines in Htwo.
    apply andb_prop in Htwo as [Htwo H4]. apply andb_prop in Htwo as [Htwo H3].
    apply andb_prop in Htwo as [H1 H2].
    apply Nat.eqb_eq in H1, H2, H3, H4.
    split_and!; try done.
    split.
    + pose proof outputs_expected as He.
      rewrite List.Forall_forall in He. by apply He.
    + intros [->| ->]; [left|right]; vm_compute; reflexivity.
Qed.

Lemma C6_thread_messages_witness :
  exists s, qrun one_then_two qinit = Some s /\
            length (lines (qcout s)) = 2%nat /\ expected_lines (qcout s).
Proof.
  eexists. split; [vm_compute; reflexivity|].
  assert (qreachable (QState (Some (1, QDone)) (Some (2, QDone)) (QExited 0)
            (line 1 ++ line 2)%string)) as Hs.
  { apply (qrun_steps one_then_two). vm_compute. reflexivity. }
  destruct (C6_thread_messages _ Hs) as (_ & _ & _ & H).
  destruct (H ltac:(by eexists)) as (_ & H2 & _ & _ & _ & H6).
  split; [exact H2|]. apply H6. left. reflexivity.
Defined.

(** C7: with two threads and no iterations, every run of each of the three
    programs ends, with [counter = 0], and prints 0; the counter is 0 all
    along. *)
Theorem C7_zero_iterations r :
  terminates r 2 0 /\
  (exists s, final r 2 0 s) /\
  (forall s, reachable r 2 0 s -> counter (mem s) = 0) /\
  (forall s, final r 2 0 s ->
     counter (mem s) = 0 /\ cout s = (label ++ "0" ++ endl)%string).
Proof.
  assert (0 <= 0 <= INT_MAX) as Hn by (vm_compute; split; discriminate).
  assert (Z.of_nat 2 * 0 <= INT_MAX) as Hfit by (vm_compute; discriminate).
  assert (forall s, reachable r 2 0 s -> counter (mem s) = 0) as Hzero.
  { intros s Hs. destruct (final_upper r 2 0 Hn s Hs) as [_ Hup].
    destruct (nonneg_invariant r 2 0 Hn Hfit s Hs) as [Hlo _]. lia. }
  split_and!.
  - by apply counter_terminates.
  - by apply some_run_completes.
  - exact Hzero.
  - intros s Hf. pose proof (Hzero s (proj1 Hf)) as Hc. split; [done|].
    destruct (final_output r 2 0 Hn s Hf) as [Hout _]. by rewrite Hout, Hc.
Qed.







(** C10: with the constants of the source (two threads, 1000000
    iterations) [counter] stays between 0 and 2000000, which is below
    [INT_MAX], in every state that a run of any of the three programs
    reaches, and no increment that a thread is about to perform there, of
    [counter] or of its loop variable, wraps around. *)
Theorem C10_no_overflow r s :
  reachable r threads iterations_per_thread s ->
  0 <= counter (mem s) <= 2000000 /\ 2000000 <= INT_MAX /\
  (forall k p, workers s !! k = Some p -> no_wrap p (mem s)) /\
  (forall k i v, workers s !! k = Some (PStore i v) ->
     0 <= v /\ v + 1 <= 2000000).
Proof.
  intros Hs.
  assert (0 <= iterations_per_thread <= INT_MAX) as Hn by (vm_compute; split; discriminate).
  assert (Z.of_nat threads * iterations_per_thread <= INT_MAX) as Hfit
    by (vm_compute; discriminate).
  destruct (final_upper r _ _ Hn s Hs) as [_ Hup].
  change (Z.of_nat threads * iterations_per_thread) with 2000000 in Hup.
  destruct (nonneg_invariant r _ _ Hn Hfit s Hs) as [Hlo Hv].
  split_and!; try done.
  - intros k p Hk. by apply (no_wrap_invariant r _ _ Hn Hfit s k p).
  - intros k i v Hk. split; [by eapply Hv|].
    destruct (bounded_invariant r _ _ Hn s Hs) as (_ & _ & H3).
    destruct (H3 _ _ _ Hk) as [_ Hle].
    pose proof (shape_invariant r _ _ Hn s Hs) as Hshape.
    pose proof (total_committed_slack r _ _ Hn s k _ Hshape Hk) as Hslack.
    assert (wf_pc r iterations_per_thread (PStore i v)) as Hwf
      by (destruct Hshape as [Hwf _]; eapply Forall_lookup_1; eauto).
    simpl in Hslack, Hwf.
    change (Z.of_nat threads * iterations_per_thread) with 2000000 in Hslack. lia.
Qed.

Lemma C10_no_overflow_witness :
  exists s,
    run NONE threads iterations_per_thread
      [Main; Main; Worker 0%nat; Worker 0%nat] (init threads) = Some s /\
    0 <= counter (mem s) <= 2000000 /\ no_wrap (PStore 0 0) (mem s).
Proof.
  set (s := State (Shared 0 false) [PStore 0 0; PTest 0] (MJoin 0) EmptyString).
  exists s. split; [vm_compute; reflexivity|].
  assert (reachable NONE threads iterations_per_thread s) as Hs.
  { eapply run_reachable with (sched := [Main; Main; Worker 0%nat; Worker 0%nat]).
    vm_compute. reflexivity. }
  destruct (C10_no_overflow NONE s Hs) as (H1 & _ & H3 & _).
  split; [exact H1|]. apply (H3 0%nat). reflexivity.
Defined.

End Claims.

(** * Further properties of the programs *)

Section Extras.

Import Counter SimpleMultiThreading.

(** X1: the lock is never left held.  In [mutex.cpp], once [main] is past
    the joins (in particular when the process exits) [mtx] is free; and the
    other two counter programs never hold it at all. *)
Theorem X1_lock_released r t n s :
  0 <= n <= INT_MAX -> reachable r t n s ->
  (joined s -> mtx (mem s) = false) /\
  (r <> MUTEX -> mtx (mem s) = false).
Proof.
  intros Hn Hs. split; [|intros Hr; by apply (unlocked_invariant r t n)].
  intros Hj. destruct r;
    [apply (unlocked_invariant NONE t n s Hn); [discriminate|exact Hs]
    | |apply (unlocked_invariant ATOMIC t n s Hn); [discriminate|exact Hs]].
  destruct (lock_invariant MUTEX t n Hn s eq_refl Hs) as [Hh _].
  destruct (joined_all_done MUTEX t n Hn s Hs Hj) as [_ Hall].
  rewrite (all_done_no_holder _ Hall) in Hh.
  destruct (mtx (mem s)); [lia|done].
Qed.

Lemma X1_lock_released_witness :
  0 <= 1 <= INT_MAX /\
  exists s, run MUTEX 2 1 (sequential MUTEX 2 1) (init 2) = Some s /\
            mtx (mem s) = false.
Proof.
  assert (0 <= 1 <= INT_MAX) as H1 by (vm_compute; split; discriminate).
  split; [exact H1|].
  set (s := State (Shared 2 false) [PDone; PDone] (MExited 0)
              (label ++ "2" ++ endl)%string).
  exists s. split; [vm_compute; reflexivity|].
  assert (reachable MUTEX 2 1 s) as Hs.
  { eapply run_reachable with (sched := sequential MUTEX 2 1). vm_compute. reflexivity. }
  apply (proj1 (X1_lock_released MUTEX 2 1 s H1 Hs)). exact I.
Defined.

(** X2: in [mutex.cpp] the counter is only written under the lock, and the
    write is never stale: a move that changes [counter] is made while [mtx]
    is held, leaves it held, and puts the old value plus one (as an [int])
    in its place. *)
Theorem X2_writes_under_lock t n s s' :
  0 <= n <= INT_MAX -> reachable MUTEX t n s -> steps MUTEX t n s s' ->
  counter (mem s') <> counter (mem s) ->
  mtx (mem s) = true /\ mtx (mem s') = true /\
  counter (mem s') = wrap32 (counter (mem s) + 1).
Proof.
  intros Hn Hs [a Ha] Hch. destruct s as [m ws mp out].
  destruct a as [|k]; simpl in Ha.
  - unfold Counter.main in Ha; simpl in Ha.
    destruct mp; simplify_eq; simpl in *; try done;
      destruct (ws !! k) as [[]|]; simplify_eq; done.
  - destruct (ws !! k) as [p|] eqn:Hk; [|discriminate].
    destruct (incrementCounter MUTEX n p m) as [[p' m']|] eqn:Hp; [|discriminate].
    injection Ha as <-. simpl in *.
    destruct (lock_invariant MUTEX t n Hn _ eq_refl Hs) as [Hh Hv]. simpl in Hh, Hv.
    destruct (shape_invariant MUTEX t n Hn _ Hs) as [Hwf _]. simpl in Hwf.
    eapply Forall_lookup_1 in Hwf; [|exact Hk].
    destruct p; simpl in Hp, Hwf; simplify_eq; simpl in *; try done.
    + destruct (mtx m); simplify_eq; done.
    + pose proof (holders_one ws k _ Hk eq_refl).
      assert (mtx m = true) as Hm by (destruct (mtx m); [done|lia]).
      rewrite (Hv _ _ _ Hk). done.
    + destruct Hwf; congruence.
Qed.

Lemma X2_writes_under_lock_witness :
  0 <= 1 <= INT_MAX /\
  exists s s',
    run MUTEX 2 1 [Main; Main; Worker 0%nat; Worker 0%nat; Worker 0%nat]
      (init 2) = Some s /\
    step MUTEX 2 1 (Worker 0) s = Some s' /\
    mtx (mem s) = true /\ mtx (mem s') = true /\
    counter (mem s') = wrap32 (counter (mem s) + 1).
Proof.
  assert (0 <= 1 <= INT_MAX) as H1 by (vm_compute; split; discriminate).
  split; [exact H1|].
  set (s := State (Shared 0 true) [PStore 0 0; PTest 0] (MJoin 0) EmptyString).
  set (s' := State (Shared 1 true) [PUnlock 0; PTest 0] (MJoin 0) EmptyString).
  exists s, s'. split; [vm_compute; reflexivity|]. split; [vm_compute; reflexivity|].
  assert (reachable MUTEX 2 1 s) as Hs.
  { eapply run_reachable
      with (sched := [Main; Main; Worker 0%nat; Worker 0%nat; Worker 0%nat]).
    vm_compute. reflexivity. }
  assert (steps MUTEX 2 1 s s') as Hstep
    by (exists (Worker 0); vm_compute; reflexivity).
  apply (X2_writes_under_lock 2 1 s s' H1 Hs Hstep). vm_compute. discriminate.
Defined.

(** X3: in [mutex.cpp] and [atomic.cpp] no update is lost at any time:
    when [t * n <= INT_MAX], in every state a run reaches [counter] is
    the number of loop bodies that the threads have completed so far. *)
Theorem X3_counts_completed_increments r t n s :
  r <> NONE -> 0 <= n <= INT_MAX -> Z.of_nat t * n <= INT_MAX ->
  reachable r t n s ->
  counter (mem s) = total (committed n) (workers s).
Proof.
  intros Hr Hn Hfit Hs.
  pose proof (shape_invariant r t n Hn s Hs) as Hshape.
  pose proof (total_committed_max r t n Hn s Hshape).
  pose proof (total_committed_nonneg r n Hn (workers s) (proj1 Hshape)).
  rewrite (exact_invariant r t n Hn s Hr Hs).
  apply wrap32_id. unfold in_int, INT_MIN in *. lia.
Qed.

Lemma X3_counts_completed_increments_witness :
  ATOMIC <> NONE /\ 0 <= 2 <= INT_MAX /\ Z.of_nat 2 * 2 <= INT_MAX /\
  exists s,
    run ATOMIC 2 2 ([Main; Main] ++ turns (Worker 0) 5 ++ turns (Worker 1) 2)
      (init 2) = Some s /\
    workers s = [PNext 1; PNext 0] /\ counter (mem s) = 3.
Proof.
  assert (ATOMIC <> NONE) as H1 by discriminate.
  assert (0 <= 2 <= INT_MAX) as H2 by (vm_compute; split; discriminate).
  assert (Z.of_nat 2 * 2 <= INT_MAX) as H3 by (vm_compute; discriminate).
  split; [exact H1|]. split; [exact H2|]. split; [exact H3|].
  set (s := State (Shared 3 false) [PNext 1; PNext 0] (MJoin 0) EmptyString).
  exists s. split; [vm_compute; reflexivity|]. split; [reflexivity|].
  assert (reachable ATOMIC 2 2 s) as Hs.
  { eapply run_reachable
      with (sched := [Main; Main] ++ turns (Worker 0) 5 ++ turns (Worker 1) 2).
    vm_compute. reflexivity. }
  exact (X3_counts_completed_increments ATOMIC 2 2 s H1 H2 H3 Hs).
Defined.

(** X4: [atomic.cpp] beyond the range of [int]: for any number of threads
    and any [n], every complete run ends with [t * n] reduced to 32 bits,
    whatever the schedule. *)
Theorem X4_atomic_wraps t n s :
  0 <= n <= INT_MAX -> final ATOMIC t n s ->
  counter (mem s) = wrap32 (Z.of_nat t * n) /\
  cout s = (label ++ decimal (wrap32 (Z.of_nat t * n)) ++ endl)%string.
Proof.
  intros Hn Hf.
  assert (counter (mem s) = wrap32 (Z.of_nat t * n)) as Hc
    by (apply (final_exact ATOMIC t n Hn s); [discriminate|done]).
  split; [done|].
  destruct (final_output ATOMIC t n Hn s Hf) as [Hout _]. by rewrite Hout, Hc.
Qed.

Lemma X4_atomic_wraps_witness :
  0 <= 1 <= INT_MAX /\
  exists s, run ATOMIC 2 1 round_robin (init 2) = Some s /\
            counter (mem s) = wrap32 (Z.of_nat 2 * 1).
Proof.
  assert (0 <= 1 <= INT_MAX) as H1 by (vm_compute; split; discriminate).
  split; [exact H1|].
  set (s := State (Shared 2 false) [PDone; PDone] (MExited 0)
              (label ++ "2" ++ endl)%string).
  exists s. split; [vm_compute; reflexivity|].
  assert (final ATOMIC 2 1 s) as Hf.
  { split; [|by eexists].
    eapply run_reachable with (sched := round_robin). vm_compute. reflexivity. }
  exact (proj1 (X4_atomic_wraps 2 1 s H1 Hf)).
Defined.

(** X5: the counter programs write nothing while a thread may still be
    running: as long as some thread is yet to be created or has not
    returned, standard output is empty. *)
Theorem X5_silent_until_joined r t n s :
  0 <= n <= INT_MAX -> reachable r t n s ->
  ((length (workers s) < t)%nat \/
   exists k p, workers s !! k = Some p /\ p <> PDone) ->
  cout s = EmptyString /\ ~ joined s.
Proof.
  intros Hn Hs Hrun.
  assert (~ joined s) as Hnj.
  { intros Hj. destruct (joined_all_done r t n Hn s Hs Hj) as [Hlen Hall].
    destruct Hrun as [Hlt|(k & p & Hk & Hp)]; [lia|].
    eapply Forall_lookup_1 in Hall; [|exact Hk]. done. }
  split; [|done].
  pose proof (out_invariant r t n Hn s Hs) as Hout.
  unfold out_inv in Hout. unfold joined in Hnj.
  destruct (main_pc s); done.
Qed.

Lemma X5_silent_until_joined_witness :
  0 <= 1 <= INT_MAX /\
  exists s,
    run NONE 2 1 ([Main; Main] ++ turns (Worker 0) 5 ++ turns (Worker 1) 3)
      (init 2) = Some s /\
    workers s = [PDone; PNext 0] /\ cout s = EmptyString.
Proof.
  assert (0 <= 1 <= INT_MAX) as H1 by (vm_compute; split; discriminate).
  split; [exact H1|].
  set (s := State (Shared 2 false) [PDone; PNext 0] (MJoin 0) EmptyString).
  exists s. split; [vm_compute; reflexivity|]. split; [reflexivity|].
  assert (reachable NONE 2 1 s) as Hs.
  { eapply run_reachable
      with (sched := [Main; Main] ++ turns (Worker 0) 5 ++ turns (Worker 1) 3).
    vm_compute. reflexivity. }
  apply (X5_silent_until_joined NONE 2 1 s H1 Hs).
  right. exists 1%nat, (PNext 0). split; [reflexivity|discriminate].
Defined.

(** X6: the value that is printed is the final one.  Once [main] is past
    the joins no thread moves any more: every further move is a move of
    [main], leaves the counter, the lock and the threads as they are, and
    only appends to standard output. *)
Theorem X6_frozen_after_joins r t n s s' a :
  0 <= n <= INT_MAX -> reachable r t n s -> joined s ->
  step r t n a s = Some s' ->
  a = Main /\ mem s' = mem s /\ workers s' = workers s /\ joined s' /\
  exists piece, cout s' = (cout s ++ piece)%string.
Proof.
  intros Hn Hs Hj Ha.
  destruct (joined_all_done r t n Hn s Hs Hj) as [_ Hall].
  destruct s as [m ws mp out]. unfold joined in *. simpl in *.
  destruct a as [|k]; simpl in Ha.
  - unfold Counter.main in Ha; simpl in Ha.
    destruct mp; simplify_eq; simpl; split_and!; try done.
    + by eexists.
    + by eexists.
    + by eexists.
    + exists EmptyString. by rewrite append_nil_r.
  - destruct (ws !! k) as [p|] eqn:Hk; [|discriminate].
    eapply Forall_lookup_1 in Hall; [|exact Hk]. subst p. discriminate.
Qed.

Lemma X6_frozen_after_joins_witness :
  0 <= 1 <= INT_MAX /\
  exists s s',
    run ATOMIC 2 1 ([Main; Main] ++ turns (Worker 0) 4 ++ turns (Worker 1) 4
                    ++ turns Main 3) (init 2) = Some s /\
    step ATOMIC 2 1 Main s = Some s' /\
    mem s' = mem s /\ cout s' = (label ++ "2")%string.
Proof.
  assert (0 <= 1 <= INT_MAX) as H1 by (vm_compute; split; discriminate).
  split; [exact H1|].
  set (s := State (Shared 2 false) [PDone; PDone] MPutCounter label).
  set (s' := State (Shared 2 false) [PDone; PDone] MPutEndl (label ++ "2")%string).
  exists s, s'. split; [vm_compute; reflexivity|]. split; [vm_compute; reflexivity|].
  assert (reachable ATOMIC 2 1 s) as Hs.
  { eapply run_reachable
      with (sched := [Main; Main] ++ turns (Worker 0) 4 ++ turns (Worker 1) 4
                     ++ turns Main 3).
    vm_compute. reflexivity. }
  assert (step ATOMIC 2 1 Main s = Some s') as Hstep by (vm_compute; reflexivity).
  destruct (X6_frozen_after_joins ATOMIC 2 1 s s' Main H1 Hs I Hstep)
    as (_ & Hmem & _).
  split; [exact Hmem|reflexivity].
Defined.

(** X7: the loop of [incrementCounter], on its own.  Started at the loop
    test with [i] passes done and the lock free, [k] further passes (as long
    as [i + k <= n]) bring it back to the loop test with [i + k] passes
    done, the lock free again, and [counter] advanced by [k] in 32-bit
    arithmetic, by exactly [k] writes. *)
Theorem X7_loop_invariant r n (k : nat) i m :
  0 <= n <= INT_MAX -> 0 <= i -> i + Z.of_nat k <= n ->
  mtx m = false -> in_int (counter m) ->
  run_worker r n (k * Z.to_nat (per_iter r)) (PTest i) m =
    (PTest (i + Z.of_nat k),
     Shared (wrap32 (counter m + Z.of_nat k)) false, Z.of_nat k).
Proof. intros Hn Hi Hk Hm Hc. by apply iterations. Qed.

Lemma X7_loop_invariant_witness :
  0 <= 5 <= INT_MAX /\ 0 <= 1 /\ 1 + Z.of_nat 3 <= 5 /\ in_int 7 /\
  run_worker MUTEX 5 18 (PTest 1) (Shared 7 false) =
    (PTest 4, Shared 10 false, 3).
Proof.
  assert (0 <= 5 <= INT_MAX) as H1 by (vm_compute; split; discriminate).
  assert (0 <= 1) as H2 by lia.
  assert (1 + Z.of_nat 3 <= 5) as H3 by (vm_compute; discriminate).
  assert (in_int 7) as H4 by (vm_compute; split; discriminate).
  split; [exact H1|]. split; [exact H2|]. split; [exact H3|]. split; [exact H4|].
  exact (X7_loop_invariant MUTEX 5 3 1 (Shared 7 false) H1 H2 H3 eq_refl H4).
Defined.

(** X9: the schedule does not change the amount of work.  Every complete
    run of a counter program has the same number of moves,
    [t * (per_iter r * n + 3) + 4]: two moves of [main] and
    [per_iter r * n + 1] moves of its own for each thread, and four moves
    of [main] to print and return. *)
Theorem X9_run_length r t n k s :
  0 <= n <= INT_MAX ->
  nsteps (steps r t n) k (init t) s -> exited s ->
  Z.of_nat k = Z.of_nat t * (per_iter r * n + 3) + 4.
Proof.
  intros Hn Hk Hex.
  assert (final r t n s) as Hf by (split; [eapply rtc_nsteps_2; eauto|done]).
  rewrite (run_length r t n Hn k s Hk).
  destruct (final_all_done r t n Hn s Hf) as [Hlen Hall].
  destruct Hex as [code Hc].
  assert (measure r t n s = 0) as ->.
  { unfold measure. rewrite Hc, Hlen. simpl.
    rewrite (total_const _ 0); [lia|].
    eapply Forall_impl; [exact Hall|]. by intros p ->. }
  unfold measure, init, spawn_from, join_from. simpl.
  rewrite total_nil. destruct (Nat.ltb_spec 0 t); simpl; lia.
Qed.

Lemma X9_run_length_witness :
  0 <= 1 <= INT_MAX /\
  exists s, run MUTEX 2 1 (sequential MUTEX 2 1) (init 2) = Some s /\
            Z.of_nat (length (sequential MUTEX 2 1)) =
              Z.of_nat 2 * (per_iter MUTEX * 1 + 3) + 4.
Proof.
  assert (0 <= 1 <= INT_MAX) as H1 by (vm_compute; split; discriminate).
  split; [exact H1|].
  set (s := State (Shared 2 false) [PDone; PDone] (MExited 0)
              (label ++ "2" ++ endl)%string).
  exists s. split; [vm_compute; reflexivity|].
  apply (X9_run_length MUTEX 2 1 _ s H1); [|by eexists].
  apply run_nsteps. vm_compute. reflexivity.
Defined.

(** X11: [raceCondition.cpp] loses updates but never all of them while it
    runs: when [t * n <= INT_MAX], in every state a run reaches [counter]
    is at least 0 and at most the number of loop bodies completed so far,
    and it is at least 1 as soon as one body has been completed. *)
Theorem X11_racy_never_back_to_zero t n s :
  (1 <= t)%nat -> 0 <= n -> Z.of_nat t * n <= INT_MAX ->
  reachable NONE t n s ->
  0 <= counter (mem s) <= total (committed n) (workers s) /\
  (1 <= total (committed n) (workers s) -> 1 <= counter (mem s)).
Proof.
  intros Ht Hn0 Hfit Hs. pose proof (fits_range t n Ht Hn0 Hfit) as Hn.
  destruct (nonneg_invariant NONE t n Hn Hfit s Hs) as [Hlo _].
  destruct (bounded_invariant NONE t n Hn s Hs) as (_ & Hup & _).
  destruct (racy_invariant NONE t n Hn Hfit s eq_refl Ht Hs) as (H1 & _).
  split; [lia|exact H1].
Qed.

Lemma X11_racy_never_back_to_zero_witness :
  (1 <= 2)%nat /\ 0 <= 2 /\ Z.of_nat 2 * 2 <= INT_MAX /\
  exists s, run NONE 2 2 (stale_read ++ [Worker 0%nat]) (init 2) = Some s /\
            workers s = [PNext 0; PNext 1] /\
            0 <= counter (mem s) <= 3 /\ counter (mem s) = 1.
Proof.
  assert (1 <= 2)%nat as H1 by lia.
  assert (0 <= 2) as H2 by lia.
  assert (Z.of_nat 2 * 2 <= INT_MAX) as H3 by (vm_compute; discriminate).
  split; [exact H1|]. split; [exact H2|]. split; [exact H3|].
  set (s := State (Shared 1 false) [PNext 0; PNext 1] (MJoin 0) EmptyString).
  exists s. split; [vm_compute; reflexivity|]. split; [reflexivity|].
  assert (reachable NONE 2 2 s) as Hs.
  { eapply run_reachable with (sched := stale_read ++ [Worker 0%nat]).
    vm_compute. reflexivity. }
  split; [exact (proj1 (X11_racy_never_back_to_zero 2 2 s H1 H2 H3 Hs))|reflexivity].
Defined.

(** Pieces of a run of the racy worker: the read half of a pass, the write
    half of a pass, and the failing loop test. *)
Lemma racy_read n i m :
  0 <= i < n ->
  run_worker NONE n 2 (PTest i) m = (PStore i (counter m), m, 0).
Proof.
  intros Hi. simpl. destruct (Z.ltb_spec i n); [|lia]. reflexivity.
Qed.

Lemma racy_write n i v m :
  0 <= i < n -> n <= INT_MAX ->
  run_worker NONE n 2 (PStore i v) m =
    (PTest (i + 1), Shared (wrap32 (v + 1)) (mtx m), 1).
Proof.
  intros Hi Hn. simpl.
  rewrite (wrap32_id (i + 1)) by (unfold in_int, INT_MIN in *; lia). reflexivity.
Qed.

Lemma loop_exit r n m : run_worker r n 1 (PTest n) m = (PDone, m, 0).
Proof. simpl. rewrite Z.ltb_irrefl. reflexivity. Qed.

Lemma racy_maximum n :
  0 <= n -> 2 * n <= INT_MAX ->
  exists s, final NONE 2 n s /\ counter (mem s) = 2 * n.
Proof.
  intros Hn0 Hfit.
  assert (0 <= n <= INT_MAX) as Hn by lia.
  set (fuel := Z.to_nat (per_iter NONE * n + 1)).
  assert (run_worker NONE n fuel (PTest 0) (Shared 0 false) =
            (PDone, Shared n false, n)) as W0.
  { unfold fuel. rewrite (worker_alone NONE n Hn 0) by (vm_compute; split; discriminate).
    rewrite wrap32_id by (unfold in_int, INT_MIN in *; lia).
    by rewrite Z.add_0_l. }
  assert (run_worker NONE n fuel (PTest 0) (Shared n false) =
            (PDone, Shared (2 * n) false, n)) as W1.
  { unfold fuel. rewrite (worker_alone NONE n Hn n) by (unfold in_int, INT_MIN in *; lia).
    rewrite wrap32_id by (unfold in_int, INT_MIN in *; lia).
    do 3 f_equal. lia. }
  exists (State (Shared (2 * n) false) [PDone; PDone] (MExited 0)
            (label ++ decimal (2 * n) ++ endl)%string).
  split; [|reflexivity]. split; [|by eexists].
  unfold reachable.
  etrans; [apply (run_steps NONE 2 n [Main; Main]); reflexivity|].
  etrans; [eapply (lift_worker NONE n 2 fuel 0); [reflexivity|exact W0]|].
  etrans; [eapply (lift_worker NONE n 2 fuel 1); [reflexivity|exact W1]|].
  apply (run_steps NONE 2 n (turns Main 6)). reflexivity.
Qed.

Lemma racy_minimum n :
  2 <= n -> 2 * n <= INT_MAX ->
  exists s, final NONE 2 n s /\ counter (mem s) = 2.
Proof.
  intros Hn2 Hfit.
  assert (0 <= n <= INT_MAX) as Hn by lia.
  set (k := Z.to_nat (n - 1)).
  set (fuel := (k * Z.to_nat (per_iter NONE))%nat).
  assert (Z.of_nat k = n - 1) as Hk by (unfold k; lia).
  (* thread 1 runs all but its last pass while thread 0 holds a stale 0 *)
  assert (run_worker NONE n fuel (PTest 0) (Shared 0 false) =
            (PTest (n - 1), Shared (n - 1) false, n - 1)) as A.
  { unfold fuel. rewrite (iterations NONE n Hn k 0 (Shared 0 false));
      try done; try lia.
    cbn [counter]. rewrite Hk.
    rewrite wrap32_id by (unfold in_int, INT_MIN in *; lia).
    do 3 f_equal; lia. }
  (* thread 0 runs its remaining passes while thread 1 holds a stale 1 *)
  assert (run_worker NONE n fuel (PTest 1) (Shared 1 false) =
            (PTest n, Shared n false, n - 1)) as B.
  { unfold fuel. rewrite (iterations NONE n Hn k 1 (Shared 1 false));
      try done; try lia.
    cbn [counter]. rewrite Hk.
    rewrite wrap32_id by (unfold in_int, INT_MIN in *; lia).
    do 3 f_equal; lia. }
  pose proof (racy_read n 0 (Shared 0 false) ltac:(lia)) as R0.
  pose proof (racy_write n 0 0 (Shared (n - 1) false) ltac:(lia) ltac:(lia)) as S0.
  change (wrap32 (0 + 1)) with 1 in S0. change (0 + 1) with 1 in S0.
  pose proof (racy_read n (n - 1) (Shared 1 false) ltac:(lia)) as R1.
  pose proof (racy_write n (n - 1) 1 (Shared n false) ltac:(lia) ltac:(lia)) as S1.
  change (wrap32 (1 + 1)) with 2 in S1.
  replace (n - 1 + 1) with n in S1 by lia.
  cbn [counter] in R0, R1. cbn [mtx] in S0, S1.
  exists (State (Shared 2 false) [PDone; PDone] (MExited 0)
            (label ++ "2" ++ endl)%string).
  split; [|reflexivity]. split; [|by eexists].
  unfold reachable.
  etrans; [apply (run_steps NONE 2 n [Main; Main]); reflexivity|].
  etrans; [eapply (lift_worker NONE n 2 2 0); [reflexivity|exact R0]|].
  etrans; [eapply (lift_worker NONE n 2 fuel 1); [reflexivity|exact A]|].
  etrans; [eapply (lift_worker NONE n 2 2 0); [reflexivity|exact S0]|].
  etrans; [eapply (lift_worker NONE n 2 2 1); [reflexivity|exact R1]|].
  etrans; [eapply (lift_worker NONE n 2 fuel 0); [reflexivity|exact B]|].
  etrans; [eapply (lift_worker NONE n 2 1 0); [reflexivity|apply loop_exit]|].
  etrans; [eapply (lift_worker NONE n 2 2 1); [reflexivity|exact S1]|].
  etrans; [eapply (lift_worker NONE n 2 1 1); [reflexivity|apply loop_exit]|].
  apply (run_steps NONE 2 n (turns Main 6)). reflexivity.
Qed.

(** X8: the bounds of the racy counter are both attained.  For two threads
    and every [n >= 2] with [2 * n <= INT_MAX], [raceCondition.cpp] has a
    complete run that ends with [2 * n] (one thread after the other) and a
    complete run that ends with 2 (each thread's last write puts back a
    value read before the other thread's passes). *)
Theorem X8_racy_extremes n :
  2 <= n -> 2 * n <= INT_MAX ->
  (exists s, final NONE 2 n s /\ counter (mem s) = 2 * n) /\
  (exists s, final NONE 2 n s /\ counter (mem s) = 2).
Proof.
  intros Hn Hfit. split; [apply racy_maximum; lia|by apply racy_minimum].
Qed.

Lemma X8_racy_extremes_witness :
  2 <= 3 /\ 2 * 3 <= INT_MAX /\
  (exists s, final NONE 2 3 s /\ counter (mem s) = 2 * 3) /\
  (exists s, final NONE 2 3 s /\ counter (mem s) = 2).
Proof.
  assert (2 <= 3) as H1 by lia.
  assert (2 * 3 <= INT_MAX) as H2 by (vm_compute; discriminate).
  split; [exact H1|]. split; [exact H2|].
  exact (X8_racy_extremes 3 H1 H2).
Defined.

(** Each schedule of [qschedules] runs through and leaves the text of the
    corresponding merge. *)
Lemma qschedules_outputs :
  map (fun sched => qrun sched qinit) qschedules =
  map (fun out => Some (qexit_state out)) outputs.
Proof. vm_compute. reflexivity. Qed.

(** X10: the texts that [simpleMultiThreading.cpp] can print are exactly
    the merges of the two threads' pieces: every complete run leaves one of
    them, and each of them is left by some complete run. *)
Theorem X10_possible_outputs out :
  In out outputs <-> exists s, qfinal s /\ qcout s = out.
Proof.
  split.
  - intros Hin.
    apply (in_map (fun out => Some (qexit_state out))) in Hin.
    rewrite <- qschedules_outputs in Hin.
    apply in_map_iff in Hin as (sched & Hrun & _).
    exists (qexit_state out). split; [|reflexivity].
    split; [|by eexists]. by apply (qrun_steps sched).
  - intros (s & Hf & <-). by apply qfinal_in_outputs.
Qed.

End Extras.
